(** * MyoPhysicalTherapy: waypoint quantisation, debouncing, recording and
      matching (hello-myo.cpp)

    A shallow embedding of the gesture engine of [hello-myo.cpp]:
    - [DataCollector::onOrientationData] (the quantiser),
    - [EulerAngle] and [Gesture],
    - the loops of [GestureRecorder::record] and [GestureListener::isGesture],
    - the name-keyed registry [Gestures] and the two places of [main] that
      write and read it.

    C++ [int] values are integers of [Z] with the 32-bit wrap-around written
    out; [std::vector] is a list; [std::map<std::string, Gesture*>] is a list
    of bindings kept in ascending key order; the device ([hub->run]) is the
    list of the collector states it leaves behind, one per call. *)

From Stdlib Require Import ZArith List Bool Lia String Ascii.
From Stdlib Require DecimalString DecimalZ.
From Stdlib Require Import Sorting.Sorted Structures.OrdersEx.
From Stdlib Require Import Reals Lra.
Import ListNotations.

Local Open Scope Z_scope.

(* ================================================================= *)
(** ** Machine integers *)

(** [int] is 32 bits wide; [to_int] is the conversion into it. *)
Definition INT_MIN : Z := - 2 ^ 31.
Definition INT_MAX : Z := 2 ^ 31 - 1.

Definition to_int (z : Z) : Z := (z + 2 ^ 31) mod 2 ^ 32 - 2 ^ 31.

Definition is_int (z : Z) : Prop := INT_MIN <= z <= INT_MAX.

Definition int_add (a b : Z) : Z := to_int (a + b).
Definition int_sub (a b : Z) : Z := to_int (a - b).
Definition int_abs (a : Z) : Z := to_int (Z.abs a).

(* ================================================================= *)
(** ** Constants (lines 18-20) *)

Definition FREQUENCY : Z := 10.
Definition TOLERANCE : Z := 2.
Definition MAX_STRIKES : Z := 2.

(* ================================================================= *)
(** ** The collector (lines 25-167) *)

(** The enumerators of [myo::Pose::Type], from the Myo SDK header. *)
Inductive Pose : Type :=
| rest | fist | waveIn | waveOut | fingersSpread | doubleTap | unknown.

Definition Pose_eqb (p q : Pose) : bool :=
  match p, q with
  | rest, rest | fist, fist | waveIn, waveIn | waveOut, waveOut
  | fingersSpread, fingersSpread | doubleTap, doubleTap
  | unknown, unknown => true
  | _, _ => false
  end.

(** The fields of [DataCollector] that the recorder and the listener read. *)
Record DataCollector : Type := mkCollector {
  currentPose : Pose;
  roll_w : Z;
  pitch_w : Z;
  yaw_w : Z
}.

(** [hub->run(1000/FREQUENCY)] runs the callbacks of the collector for one
    time slice.  The device is the list of collector states found after
    each successive call; when the list is exhausted the call has not
    returned yet. *)
Definition Hub : Type := list DataCollector.

(* ================================================================= *)
(** ** EulerAngle (lines 168-195) *)

Record EulerAngle : Type := mkEulerAngle {
  roll : Z;
  pitch : Z;
  yaw : Z
}.

(** The default member initialisers: [EulerAngle lastAngle;]. *)
Definition EulerAngle_default : EulerAngle := mkEulerAngle 0 0 0.

Definition EulerAngle_eqb (a b : EulerAngle) : bool :=
  (roll a =? roll b) && (pitch a =? pitch b) && (yaw a =? yaw b).

(** [EulerAngle::equals]. *)
Definition EulerAngle_equals (this ua : EulerAngle) : bool :=
  (int_abs (int_sub (roll this) (roll ua)) <=? TOLERANCE)
  && (int_abs (int_sub (pitch this) (pitch ua)) <=? TOLERANCE)
  && (int_abs (int_sub (yaw this) (yaw ua)) <=? TOLERANCE).

(* ================================================================= *)
(** ** Gesture (lines 196-239) *)

Record Gesture : Type := mkGesture { values : list EulerAngle }.

(** [std::vector::at]: [None] stands for [std::out_of_range]. *)
Definition vector_at {A : Type} (v : list A) (n : Z) : option A :=
  if n <? 0 then None else nth_error v (Z.to_nat n).

Definition push_back (g : Gesture) (a : EulerAngle) : Gesture :=
  mkGesture (values g ++ [a]).

(** [Gesture::equals]. *)
Definition Gesture_equals (g : Gesture) (euler : EulerAngle) (n : Z)
  : option bool :=
  match vector_at (values g) n with
  | Some v => Some (EulerAngle_equals v euler)
  | None => None
  end.

(** [Gesture::getNumSteps]: the size, converted to [int]. *)
Definition getNumSteps (g : Gesture) : Z :=
  to_int (Z.of_nat (List.length (values g))).

(* ================================================================= *)
(** ** The debounce lines shared by both loops
       (lines 287-300 and 361-374) *)

(** First test: the collector shows exactly [lastAngle]. *)
Definition sameAngle (lastAngle : EulerAngle) (c : DataCollector) : bool :=
  (pitch lastAngle =? pitch_w c)
  && (roll lastAngle =? roll_w c)
  && (yaw lastAngle =? yaw_w c).

(** The three [std::abs(...) <= 1] conjuncts of the second test. *)
Definition nearAngle (lastAngle : EulerAngle) (c : DataCollector) : bool :=
  (int_abs (int_sub (pitch lastAngle) (pitch_w c)) <=? 1)
  && (int_abs (int_sub (roll lastAngle) (roll_w c)) <=? 1)
  && (int_abs (int_sub (yaw lastAngle) (yaw_w c)) <=? 1).

(** What the two tests decide: [Skip m] is a [continue] that leaves
    [minorChange = m]; [Pass a] falls through with [newAngle = a] (and
    [minorChange = false]). *)
Inductive Filtered : Type :=
| Skip (minorChange : bool)
| Pass (newAngle : EulerAngle).

Definition debounce (lastAngle : EulerAngle) (minorChange : bool)
  (c : DataCollector) : Filtered :=
  if sameAngle lastAngle c then Skip false
  else if nearAngle lastAngle c && minorChange then Skip true
  else Pass (mkEulerAngle (roll_w c) (pitch_w c) (yaw_w c)).

(** How a call ended: it returned, it still waits for the device (the
    samples given were all consumed), or an exception left it. *)
Inductive Status (R : Type) : Type :=
| Returned (r : R)
| Waiting
| Thrown.
Arguments Returned {R} r.
Arguments Waiting {R}.
Arguments Thrown {R}.

(* ================================================================= *)
(** ** GestureRecorder::record (lines 265-310) *)

Record Recording : Type := mkRecording {
  rec_lastAngle : EulerAngle;
  rec_minorChange : bool;
  lastGesture : Gesture
}.

(** [reset(); EulerAngle lastAngle; bool minorChange = false;] *)
Definition record_init : Recording :=
  mkRecording EulerAngle_default false (mkGesture []).

Inductive Flow (S : Type) : Type :=
| Continue (s : S)
| Break (s : S).
Arguments Continue {S} s.
Arguments Break {S} s.

(** One turn of the [while (true)] loop, after [hub->run] left the
    collector as [c]. *)
Definition record_body (st : Recording) (c : DataCollector)
  : Flow Recording :=
  if Pose_eqb (currentPose c) doubleTap then Break st
  else
    match debounce (rec_lastAngle st) (rec_minorChange st) c with
    | Skip m => Continue (mkRecording (rec_lastAngle st) m (lastGesture st))
    | Pass newAngle =>
        Continue (mkRecording newAngle false
                    (push_back (lastGesture st) newAngle))
    end.

Fixpoint record_loop (st : Recording) (hub : Hub)
  : Status unit * Recording * Hub :=
  match hub with
  | [] => (Waiting, st, [])
  | c :: hub' =>
      match record_body st c with
      | Continue st' => record_loop st' hub'
      | Break st' => (Returned tt, st', hub')
      end
  end.

Definition record (hub : Hub) : Status unit * Recording * Hub :=
  record_loop record_init hub.

(** The gesture of a recording, as [getGesture] hands it out. *)
Definition getGesture (r : Status unit * Recording * Hub) : Gesture :=
  lastGesture (snd (fst r)).

(* ================================================================= *)
(** ** GestureListener::isGesture (lines 346-397) *)

(** The locals of [isGesture], the collector as last left by the device,
    and the waypoints written to [std::cout] at line 376. *)
Record Listening : Type := mkListening {
  lastAngle : EulerAngle;
  correct : Z;
  strikes : Z;
  minorChange : bool;
  collector : DataCollector;
  shown : list EulerAngle
}.

Definition isGesture_init (c0 : DataCollector) : Listening :=
  mkListening EulerAngle_default 0 0 false c0 [].

(** Lines 378-390: the new values of [correct] and [strikes]. *)
Definition compare_step (g : Gesture) (correct strikes : Z)
  (newAngle : EulerAngle) : option (Z * Z) :=
  match Gesture_equals g newAngle correct with
  | None => None
  | Some true => Some (int_add correct 1, strikes)
  | Some false =>
      if MAX_STRIKES <=? strikes then Some (0, 0)
      else Some (correct, int_add strikes 1)
  end.

(** Lines 361-394, after [hub->run] left the collector as [c]; [None] is
    the exception of [values->at]. *)
Definition isGesture_body (g : Gesture) (st : Listening) (c : DataCollector)
  : option Listening :=
  match debounce (lastAngle st) (minorChange st) c with
  | Skip m =>
      Some (mkListening (lastAngle st) (correct st) (strikes st) m c
              (shown st))
  | Pass newAngle =>
      match compare_step g (correct st) (strikes st) newAngle with
      | Some (k, s) =>
          Some (mkListening newAngle k s false c (shown st ++ [newAngle]))
      | None => None
      end
  end.

Fixpoint isGesture_loop (g : Gesture) (numSteps : Z) (st : Listening)
  (hub : Hub) : Status bool * Listening * Hub :=
  if correct st <? numSteps then
    if Pose_eqb (currentPose (collector st)) waveOut
    then (Returned true, st, hub)
    else
      match hub with
      | [] => (Waiting, st, [])
      | c :: hub' =>
          match isGesture_body g st c with
          | Some st' => isGesture_loop g numSteps st' hub'
          | None => (Thrown, st, hub')
          end
      end
  else (Returned true, st, hub).

Definition isGesture (g : Gesture) (c0 : DataCollector) (hub : Hub)
  : Status bool * Listening * Hub :=
  isGesture_loop g (getNumSteps g) (isGesture_init c0) hub.

(** The parts of a run. *)
Definition status {R S : Type} (r : Status R * S * Hub) : Status R :=
  fst (fst r).
Definition final {R S : Type} (r : Status R * S * Hub) : S := snd (fst r).

(* ================================================================= *)
(** ** Gestures and its uses in main (lines 465-489, 545, 559-575) *)

(** [Gesture*]: every recording allocates a fresh [Gesture] that nothing
    mutates once [record] has returned, so a pointer is the gesture it
    points to, or null. *)
Definition GesturePtr : Type := option Gesture.
Definition nullptr : GesturePtr := None.

(** [std::map<std::string, Gesture*>]: bindings in ascending order of the
    keys, compared as [std::string] compares (bytewise, lexicographic). *)
Definition StringMap : Type := list (string * GesturePtr).

Fixpoint map_find (k : string) (m : StringMap) : option GesturePtr :=
  match m with
  | [] => None
  | (k', v) :: m' =>
      match String.compare k k' with
      | Eq => Some v
      | Lt => None
      | Gt => map_find k m'
      end
  end.

(** Binds [k] to [v], in place when [k] is bound already. *)
Fixpoint map_put (k : string) (v : GesturePtr) (m : StringMap) : StringMap :=
  match m with
  | [] => [(k, v)]
  | (k', v') :: m' =>
      match String.compare k k' with
      | Eq => (k, v) :: m'
      | Lt => (k, v) :: (k', v') :: m'
      | Gt => (k', v') :: map_put k v m'
      end
  end.

(** [m[k]]: the value bound to [k]; an unbound [k] is first bound to a
    value-initialised pointer. *)
Definition map_subscript (m : StringMap) (k : string)
  : GesturePtr * StringMap :=
  match map_find k m with
  | Some v => (v, m)
  | None => (nullptr, map_put k nullptr m)
  end.

(** The keys in iteration order, [begin()] first. *)
Definition keys (m : StringMap) : list string := map fst m.

(** [std::less<std::string>]. *)
Definition string_lt (a b : string) : Prop := String.compare a b = Lt.

Record Gestures : Type := mkGestures { gest : StringMap }.

Definition Gestures_empty : Gestures := mkGestures [].

(** [Gestures::keyAt]: [i] is compared with [n] at every binding and never
    changed; without a binding left, control leaves the function with no
    [return] ([None]: no value is defined). *)
Fixpoint keyAt_loop (it : StringMap) (i n : Z) : option string :=
  match it with
  | [] => None
  | (k, _) :: it' => if i =? n then Some k else keyAt_loop it' i n
  end.

Definition keyAt (lib : Gestures) (n : Z) : option string :=
  keyAt_loop (gest lib) 0 n.

(** [Gestures::getSize]. *)
Definition getSize (lib : Gestures) : Z :=
  fold_left (fun i _ => int_add i 1) (gest lib) 0.

(** Line 545: [gestures.gest[name] = recorder->getGesture();] *)
Definition save (name : string) (g : Gesture) (lib : Gestures) : Gestures :=
  mkGestures (map_put name (Some g) (snd (map_subscript (gest lib) name))).

(** The names in the order they were saved, and the library they leave. *)
Definition save_all (saved : list (string * Gesture)) (lib : Gestures)
  : Gestures :=
  fold_left (fun l ng => save (fst ng) (snd ng) l) saved lib.

(** The lookup of line 575, [gestures.gest[name]]: the pointer it yields
    and the library it leaves. *)
Definition lookup (lib : Gestures) (name : string) : GesturePtr * Gestures :=
  (fst (map_subscript (gest lib) name),
   mkGestures (snd (map_subscript (gest lib) name))).

(** The menu of lines 559-562: the names printed for [i = 0 .. n - 1]. *)
Definition menu (lib : Gestures) (n : nat) : list (option string) :=
  map (fun i => keyAt lib (Z.of_nat i)) (seq 0 n).

(* ================================================================= *)
(** ** DataCollector::onOrientationData (lines 47-67)

    The [float] and [double] arithmetic of the function is read as the
    arithmetic of the real numbers: the components of a quaternion are
    real numbers (there is no NaN and no infinity), zero has no sign, and
    no result is rounded.  What is proved of these definitions is proved
    of orientations given by finite numbers, up to rounding. *)

Section Quantizer.
Local Open Scope R_scope.

Record Quaternion : Type := mkQuaternion {
  quat_w : R;
  quat_x : R;
  quat_y : R;
  quat_z : R
}.

Definition unit_quaternion (q : Quaternion) : Prop :=
  quat_w q * quat_w q + quat_x q * quat_x q
  + quat_y q * quat_y q + quat_z q * quat_z q = 1.

(** [std::atan2]. *)
Definition atan2 (y x : R) : R :=
  if Rlt_dec 0 x then atan (y / x)
  else if Rlt_dec x 0 then
    (if Rle_dec 0 y then atan (y / x) + PI else atan (y / x) - PI)
  else if Rlt_dec 0 y then PI / 2
  else if Rlt_dec y 0 then - (PI / 2)
  else 0.

(** [static_cast<int>] of a floating-point value drops the fraction. *)
Definition static_cast_int (r : R) : Z :=
  if Rle_dec 0 r then Int_part r else (- Int_part (- r))%Z.

Definition euler_roll (quat : Quaternion) : R :=
  atan2 (2 * (quat_w quat * quat_x quat + quat_y quat * quat_z quat))
        (1 - 2 * (quat_x quat * quat_x quat + quat_y quat * quat_y quat)).

Definition euler_pitch (quat : Quaternion) : R :=
  asin (Rmax (-1)
          (Rmin 1 (2 * (quat_w quat * quat_y quat
                        - quat_z quat * quat_x quat)))).

Definition euler_yaw (quat : Quaternion) : R :=
  atan2 (2 * (quat_w quat * quat_z quat + quat_x quat * quat_y quat))
        (1 - 2 * (quat_y quat * quat_y quat + quat_z quat * quat_z quat)).

(** Lines 63-65. *)
Definition scale_roll (roll : R) : Z :=
  static_cast_int ((roll + PI) / (PI * 2) * 18).
Definition scale_pitch (pitch : R) : Z :=
  static_cast_int ((pitch + PI / 2) / PI * 18).
Definition scale_yaw (yaw : R) : Z :=
  static_cast_int ((yaw + PI) / (PI * 2) * 18).

Definition onOrientationData (c : DataCollector) (quat : Quaternion)
  : DataCollector :=
  mkCollector (currentPose c)
    (scale_roll (euler_roll quat))
    (scale_pitch (euler_pitch quat))
    (scale_yaw (euler_yaw quat)).

End Quantizer.

(* ================================================================= *)
(** ** Streams and reachable loop states *)

(** The collector showing waypoint [w] while the pose is [p]. *)
Definition sample (p : Pose) (w : EulerAngle) : DataCollector :=
  mkCollector p (roll w) (pitch w) (yaw w).

(** The waypoint a collector shows. *)
Definition shownAngle (c : DataCollector) : EulerAngle :=
  mkEulerAngle (roll_w c) (pitch_w c) (yaw_w c).

(** The states in which a turn of the loop of [record] can start. *)
Inductive record_reaches : Recording -> Prop :=
| record_reaches_init : record_reaches record_init
| record_reaches_next (st st' : Recording) (c : DataCollector) :
    record_reaches st ->
    record_body st c = Continue st' ->
    record_reaches st'.

(** The states in which a turn of the loop of [isGesture] can start. *)
Inductive isGesture_reaches (g : Gesture) (c0 : DataCollector)
  : Listening -> Prop :=
| isGesture_reaches_init : isGesture_reaches g c0 (isGesture_init c0)
| isGesture_reaches_next (st st' : Listening) (c : DataCollector) :
    isGesture_reaches g c0 st ->
    correct st < getNumSteps g ->
    currentPose (collector st) <> waveOut ->
    isGesture_body g st c = Some st' ->
    isGesture_reaches g c0 st'.

(** The gesture is complete in [st]: the loop condition fails. *)
Definition completed (g : Gesture) (st : Listening) : Prop :=
  getNumSteps g <= correct st.

(** No two neighbours of the list are the same waypoint. *)
Fixpoint adjacent_distinct (l : list EulerAngle) : Prop :=
  match l with
  | a :: (b :: _) as t => a <> b /\ adjacent_distinct t
  | _ => True
  end.

(** The device shows no stop pose ([doubleTap]) in [hub]. *)
Definition no_stop (hub : Hub) : Prop :=
  Forall (fun c => currentPose c <> doubleTap) hub.

(** The device shows no abort pose ([waveOut]) in [hub]. *)
Definition no_abort (hub : Hub) : Prop :=
  Forall (fun c => currentPose c <> waveOut) hub.

(** The samples a run has not read. *)
Definition unread {R S : Type} (r : Status R * S * Hub) : Hub := snd r.

(* ================================================================= *)
(** ** The repetition branch of main (lines 563-577) *)

(** The argument of [isGesture] at line 575,
    [gestures.gest[gestures.keyAt(input - 1)]]: the pointer found and the
    library the lookup leaves behind; [None] when [keyAt] returns no
    value. *)
Definition selected (lib : Gestures) (input : Z)
  : option (GesturePtr * Gestures) :=
  match keyAt lib (int_sub input 1) with
  | Some name => Some (lookup lib name)
  | None => None
  end.

(** How the loop of lines 572-577 ended: the condition failed; a session
    still waits for the device; a session threw; no behaviour is defined
    (no key, or a null gesture); or the turns allowed were used up. *)
Inductive Ended : Type :=
| Finished
| AwaitsDevice
| Raised
| Undefined
| OutOfTurns.

(** The end of the loop, the lines ["Reps: reps / totalReps"] printed,
    and what it leaves: collector, library and unread samples. *)
Record Performance : Type := mkPerformance {
  perf_end : Ended;
  perf_lines : list (Z * Z);
  perf_collector : DataCollector;
  perf_lib : Gestures;
  perf_unread : Hub
}.

(** [while (reps <= totalReps) { ... isGesture(...); reps++; }], for at
    most [turns] turns. *)
Fixpoint reps_loop (turns : nat) (lib : Gestures)
  (input totalReps reps : Z) (c : DataCollector) (hub : Hub)
  (lines : list (Z * Z)) : Performance :=
  if reps <=? totalReps then
    match turns with
    | O => mkPerformance OutOfTurns lines c lib hub
    | S turns' =>
        let lines' := lines ++ [(reps, totalReps)] in
        match selected lib input with
        | Some (Some g, lib') =>
            let r := isGesture g c hub in
            match status r with
            | Returned _ =>
                reps_loop turns' lib' input totalReps (int_add reps 1)
                  (collector (final r)) (unread r) lines'
            | Waiting =>
                mkPerformance AwaitsDevice lines' (collector (final r))
                  lib' (unread r)
            | Thrown =>
                mkPerformance Raised lines' (collector (final r)) lib'
                  (unread r)
            end
        | Some (None, lib') => mkPerformance Undefined lines' c lib' hub
        | None => mkPerformance Undefined lines' c lib hub
        end
    end
  else mkPerformance Finished lines c lib hub.

(** Lines 557 and 572-577, [reps] starting at 0. *)
Definition perform (turns : nat) (lib : Gestures) (input totalReps : Z)
  (c : DataCollector) (hub : Hub) : Performance :=
  reps_loop turns lib input totalReps 0 c hub [].

(** The lines ["Reps: first / total"], ["Reps: first + 1 / total"], ...,
    [count] of them. *)
Fixpoint reps_lines (count : nat) (first total : Z) : list (Z * Z) :=
  match count with
  | O => []
  | S count' => (first, total) :: reps_lines count' (first + 1) total
  end.

(* ================================================================= *)
(** ** toJSONString (lines 188-194 and 228-238) *)

Section JSON.
Local Open Scope string_scope.

(** [std::to_string(int)]: the decimal digits, after a minus sign when
    the number is negative. *)
Definition to_string (z : Z) : string :=
  DecimalString.NilEmpty.string_of_int (Z.to_int z).

(** The characters written with an escape in the source: the double
    quote, the line feed and the backspace. *)
Definition quote_char : ascii := ascii_of_nat 34.
Definition newline_char : ascii := ascii_of_nat 10.
Definition backspace_char : ascii := ascii_of_nat 8.

(** The string literals of [EulerAngle::toJSONString], in order. *)
Definition lit_roll : string :=
  String newline_char
    (String "{" (String newline_char
       (String quote_char ("roll" ++ String quote_char ": ")))).
Definition lit_pitch : string :=
  String "," (String newline_char
    (String quote_char ("pitch" ++ String quote_char ": "))).
Definition lit_yaw : string :=
  String "," (String newline_char
    (String quote_char ("yaw" ++ String quote_char ": "))).
Definition lit_close : string := String newline_char "}".

(** [EulerAngle::toJSONString]. *)
Definition EulerAngle_toJSONString (a : EulerAngle) : string :=
  lit_roll ++ to_string (roll a)
  ++ lit_pitch ++ to_string (pitch a)
  ++ lit_yaw ++ to_string (yaw a) ++ lit_close.

(** The string literals of [Gesture::toJSONString]. *)
Definition lit_gesture : string :=
  String "{" (String newline_char
    (String quote_char ("gesture" ++ String quote_char ": ["))).
Definition lit_end : string :=
  String backspace_char
    (String backspace_char (String "]" (String newline_char "}"))).

(** [Gesture::toJSONString]: the loop appends, for each element in
    order, its text and [", "]. *)
Definition Gesture_toJSONString (g : Gesture) : string :=
  fold_left (fun builder a => builder ++ (EulerAngle_toJSONString a ++ ", "))
    (values g) lit_gesture
  ++ lit_end.

(** The characters [std::to_string] can write. *)
Definition numeric (c : ascii) : bool :=
  match c with
  | "0" | "1" | "2" | "3" | "4" | "5" | "6" | "7" | "8" | "9" | "-" => true
  | _ => false
  end%char.

Fixpoint all_numeric (s : string) : bool :=
  match s with
  | EmptyString => true
  | String c s' => numeric c && all_numeric s'
  end.

End JSON.

(* ================================================================= *)
(** ** Lines 63-65 with their roundings *)

Section RoundedScaling.
Local Open Scope R_scope.

(** [M_PI] as the [double] it is, and [(float)M_PI]. *)
Definition M_PI_double : R := 884279719003555 / 281474976710656.
Definition M_PI_float : R := 13176795 / 4194304.

(** Rounding to [float] and to [double]. *)
Variables round_float round_double : R -> R.

(** Line 63 (and 65): the sum of two [float]s is a [float]; [M_PI * 2.0f],
    the quotient and the product by 18 are [double]s. *)
Definition roll_w_rounded (roll : R) : Z :=
  static_cast_int
    (round_double
       (round_double
          (round_float (roll + M_PI_float)
           / round_double (M_PI_double * 2))
        * 18)).

(** Line 64: [(float)M_PI / 2.0f] and the sum are [float]s; the quotient
    by [M_PI] and the product by 18 are [double]s. *)
Definition pitch_w_rounded (pitch : R) : Z :=
  static_cast_int
    (round_double
       (round_double
          (round_float (pitch + round_float (M_PI_float / 2))
           / M_PI_double)
        * 18)).

End RoundedScaling.

(* ================================================================= *)
(** * Properties *)

(** ** Machine integers *)

Lemma to_int_range (z : Z) : is_int (to_int z).
Proof.
  unfold is_int, to_int, INT_MIN, INT_MAX.
  pose proof (Z.mod_pos_bound (z + 2 ^ 31) (2 ^ 32) ltac:(lia)). lia.
Qed.

Lemma to_int_id (z : Z) : is_int z -> to_int z = z.
Proof.
  unfold is_int, to_int, INT_MIN, INT_MAX. intros H.
  rewrite Z.mod_small; lia.
Qed.

Lemma getNumSteps_range (g : Gesture) : is_int (getNumSteps g).
Proof. apply to_int_range. Qed.

Lemma Pose_eqb_spec (p q : Pose) : reflect (p = q) (Pose_eqb p q).
Proof. destruct p, q; simpl; constructor; congruence. Qed.

(** ** The debounce lines *)

Lemma sameAngle_spec (a : EulerAngle) (c : DataCollector) :
  sameAngle a c = true <-> a = shownAngle c.
Proof.
  unfold sameAngle, shownAngle. destruct a as [r p y]; simpl.
  rewrite !andb_true_iff, !Z.eqb_eq. split.
  - intros [[-> ->] ->]. reflexivity.
  - intros H. injection H as -> -> ->. auto.
Qed.

Lemma sameAngle_sample (a w : EulerAngle) (p : Pose) :
  sameAngle a (sample p w) = EulerAngle_eqb w a.
Proof.
  unfold sameAngle, EulerAngle_eqb, sample; simpl.
  rewrite (Z.eqb_sym (pitch a)), (Z.eqb_sym (roll a)), (Z.eqb_sym (yaw a)).
  destruct (roll w =? roll a), (pitch w =? pitch a), (yaw w =? yaw a);
    reflexivity.
Qed.

Lemma EulerAngle_eqb_spec (a b : EulerAngle) :
  reflect (a = b) (EulerAngle_eqb a b).
Proof.
  unfold EulerAngle_eqb. destruct a as [r p y], b as [r' p' y']; simpl.
  destruct (Z.eqb_spec r r'), (Z.eqb_spec p p'), (Z.eqb_spec y y');
    simpl; constructor; congruence.
Qed.

Lemma shownAngle_sample (p : Pose) (w : EulerAngle) :
  shownAngle (sample p w) = w.
Proof. destruct w; reflexivity. Qed.

(** With the flag down, the second test never holds: only an exact repeat
    is skipped. *)
Lemma debounce_flag_down (a : EulerAngle) (c : DataCollector) :
  debounce a false c
  = if sameAngle a c then Skip false else Pass (shownAngle c).
Proof.
  unfold debounce. rewrite andb_false_r. reflexivity.
Qed.

(** Whatever the tests decide, a flag that was down stays down. *)
Lemma debounce_keeps_flag_down (a : EulerAngle) (c : DataCollector)
  (m : bool) :
  debounce a false c = Skip m -> m = false.
Proof.
  rewrite debounce_flag_down. destruct (sameAngle a c); congruence.
Qed.

Lemma record_body_flag_down (st st' : Recording) (c : DataCollector) :
  rec_minorChange st = false ->
  record_body st c = Continue st' ->
  rec_minorChange st' = false.
Proof.
  unfold record_body. intros Hm.
  destruct (Pose_eqb (currentPose c) doubleTap); [discriminate|].
  rewrite Hm.
  destruct (debounce (rec_lastAngle st) false c) as [m|a] eqn:E;
    intros H; injection H as <-; simpl; auto.
  eapply debounce_keeps_flag_down; eauto.
Qed.

Lemma isGesture_body_flag_down (g : Gesture) (st st' : Listening)
  (c : DataCollector) :
  minorChange st = false ->
  isGesture_body g st c = Some st' ->
  minorChange st' = false.
Proof.
  unfold isGesture_body. intros Hm. rewrite Hm.
  destruct (debounce (lastAngle st) false c) as [m|a] eqn:E.
  - intros H; injection H as <-; simpl.
    eapply debounce_keeps_flag_down; eauto.
  - destruct (compare_step g (correct st) (strikes st) a) as [[k s]|];
      [|discriminate].
    intros H; injection H as <-; reflexivity.
Qed.

Lemma record_reaches_flag_down (st : Recording) :
  record_reaches st -> rec_minorChange st = false.
Proof.
  induction 1 as [|st st' c _ IH Hb]; [reflexivity|].
  eapply record_body_flag_down; eauto.
Qed.

Lemma isGesture_reaches_flag_down (g : Gesture) (c0 : DataCollector)
  (st : Listening) :
  isGesture_reaches g c0 st -> minorChange st = false.
Proof.
  induction 1 as [|st st' c _ IH _ _ Hb]; [reflexivity|].
  eapply isGesture_body_flag_down; eauto.
Qed.

(** Every state from which [record_loop] goes on, and the state it ends
    in, is one that [record_reaches] describes. *)
Lemma record_loop_reaches (hub : Hub) (st : Recording) :
  record_reaches st -> record_reaches (final (record_loop st hub)).
Proof.
  revert st. induction hub as [|c hub IH]; intros st Hst; simpl; auto.
  destruct (record_body st c) as [st'|st'] eqn:E.
  - apply IH. econstructor; eauto.
  - unfold record_body in E.
    destruct (Pose_eqb (currentPose c) doubleTap).
    + injection E as <-. exact Hst.
    + destruct (debounce _ _ _); discriminate.
Qed.

Lemma isGesture_loop_reaches (g : Gesture) (c0 : DataCollector) (hub : Hub)
  (st : Listening) :
  isGesture_reaches g c0 st ->
  isGesture_reaches g c0 (final (isGesture_loop g (getNumSteps g) st hub)).
Proof.
  revert st. induction hub as [|c hub IH]; intros st Hst; simpl.
  - destruct (correct st <? getNumSteps g); [|exact Hst].
    destruct (Pose_eqb (currentPose (collector st)) waveOut); exact Hst.
  - destruct (Z.ltb_spec (correct st) (getNumSteps g)); [|exact Hst].
    destruct (Pose_eqb_spec (currentPose (collector st)) waveOut);
      [exact Hst|].
    destruct (isGesture_body g st c) as [st'|] eqn:E; [|exact Hst].
    apply IH. econstructor; eauto.
Qed.

Lemma to_int_le (z : Z) : 0 <= z -> to_int z <= z.
Proof.
  intros Hz. destruct (Z_lt_le_dec z (2 ^ 31)) as [Hlt|Hge].
  - rewrite to_int_id; [lia|]. unfold is_int, INT_MIN, INT_MAX. lia.
  - pose proof (to_int_range z) as H. unfold is_int, INT_MAX in H. lia.
Qed.

(** Below [getNumSteps], [values->at] finds an element. *)
Lemma vector_at_below_numSteps (g : Gesture) (n : Z) :
  0 <= n < getNumSteps g ->
  exists target, vector_at (values g) n = Some target.
Proof.
  intros [H0 Hn]. unfold vector_at.
  destruct (Z.ltb_spec n 0) as [|_]; [lia|].
  destruct (nth_error (values g) (Z.to_nat n)) as [t|] eqn:E; [eauto|].
  apply nth_error_None in E.
  pose proof (to_int_le (Z.of_nat (List.length (values g))) ltac:(lia)).
  unfold getNumSteps in Hn. lia.
Qed.

Lemma int_add_1_below (n bound : Z) :
  0 <= n < bound -> is_int bound -> int_add n 1 = n + 1.
Proof.
  intros Hn Hb. unfold int_add. apply to_int_id.
  unfold is_int, INT_MIN, INT_MAX in *. lia.
Qed.

(** The counters of [isGesture] stay within their bounds. *)
Lemma isGesture_reaches_counters (g : Gesture) (c0 : DataCollector)
  (st : Listening) :
  isGesture_reaches g c0 st ->
  0 <= correct st /\ 0 <= strikes st <= MAX_STRIKES.
Proof.
  induction 1 as [|st st' c _ IH Hlt _ Hb];
    [simpl; unfold MAX_STRIKES; lia|].
  unfold isGesture_body in Hb.
  destruct (debounce (lastAngle st) (minorChange st) c) as [m|a].
  - injection Hb as <-. exact IH.
  - unfold compare_step in Hb.
    destruct (Gesture_equals g a (correct st)) as [[|]|]; [| |discriminate].
    + injection Hb as <-. simpl.
      rewrite (int_add_1_below (correct st) (getNumSteps g));
        [lia|lia|apply getNumSteps_range].
    + destruct (Z.leb_spec MAX_STRIKES (strikes st)).
      * injection Hb as <-. simpl. unfold MAX_STRIKES. lia.
      * injection Hb as <-. simpl.
        rewrite (int_add_1_below (strikes st) MAX_STRIKES);
          [lia|lia|unfold is_int, INT_MIN, INT_MAX, MAX_STRIKES; lia].
Qed.

(** In a turn of the loop the comparison of lines 378-390 finds its
    target: [values->at] does not throw. *)
Lemma compare_step_defined (g : Gesture) (c0 : DataCollector)
  (st : Listening) (a : EulerAngle) :
  isGesture_reaches g c0 st ->
  correct st < getNumSteps g ->
  exists k s, compare_step g (correct st) (strikes st) a = Some (k, s).
Proof.
  intros Hr Hlt.
  destruct (isGesture_reaches_counters g c0 st Hr) as [H0 _].
  destruct (vector_at_below_numSteps g (correct st) ltac:(lia)) as [t Ht].
  unfold compare_step, Gesture_equals. rewrite Ht.
  destruct (EulerAngle_equals t a); [eauto|].
  destruct (MAX_STRIKES <=? strikes st); eauto.
Qed.

(** C9. In the loop of [record] and in the loop of [isGesture] the flag
    [minorChange] is false whenever a turn starts; the second test of the
    debounce lines therefore never skips a sample, and a sample that is
    not exactly the last emitted waypoint is emitted: [record] appends it
    to the gesture, [isGesture] prints it and takes it as [lastAngle]. *)
Theorem minorChange_is_never_set (g : Gesture) (c0 c : DataCollector)
  (rs : Recording) (ls : Listening) :
  record_reaches rs ->
  isGesture_reaches g c0 ls ->
  rec_minorChange rs = false
  /\ minorChange ls = false
  /\ debounce (rec_lastAngle rs) (rec_minorChange rs) c <> Skip true
  /\ debounce (lastAngle ls) (minorChange ls) c <> Skip true
  /\ (currentPose c <> doubleTap ->
      sameAngle (rec_lastAngle rs) c = false ->
      record_body rs c
      = Continue (mkRecording (shownAngle c) false
                    (push_back (lastGesture rs) (shownAngle c))))
  /\ (correct ls < getNumSteps g ->
      sameAngle (lastAngle ls) c = false ->
      exists k s,
        isGesture_body g ls c
        = Some (mkListening (shownAngle c) k s false c
                  (shown ls ++ [shownAngle c]))).
Proof.
  intros Hr Hl.
  pose proof (record_reaches_flag_down rs Hr) as Er.
  pose proof (isGesture_reaches_flag_down g c0 ls Hl) as El.
  repeat split; auto.
  - rewrite Er, debounce_flag_down.
    destruct (sameAngle (rec_lastAngle rs) c); discriminate.
  - rewrite El, debounce_flag_down.
    destruct (sameAngle (lastAngle ls) c); discriminate.
  - intros Hp Hs. unfold record_body.
    destruct (Pose_eqb_spec (currentPose c) doubleTap); [contradiction|].
    rewrite Er, debounce_flag_down, Hs. reflexivity.
  - intros Hlt Hs.
    destruct (compare_step_defined g c0 ls (shownAngle c) Hl Hlt)
      as (k & s & E).
    exists k, s. unfold isGesture_body.
    rewrite El, debounce_flag_down, Hs, E. reflexivity.
Qed.

Lemma minorChange_is_never_set_witness :
  let g := mkGesture [mkEulerAngle 5 5 5; mkEulerAngle 10 5 5] in
  let c0 := mkCollector rest 0 0 0 in
  let c := mkCollector rest 6 5 5 in
  let rs := mkRecording (mkEulerAngle 5 5 5) false
              (mkGesture [mkEulerAngle 5 5 5]) in
  let ls := mkListening (mkEulerAngle 5 5 5) 1 0 false
              (mkCollector rest 5 5 5) [mkEulerAngle 5 5 5] in
  record_body rs c
  = Continue (mkRecording (mkEulerAngle 6 5 5) false
                (mkGesture [mkEulerAngle 5 5 5; mkEulerAngle 6 5 5]))
  /\ exists k s,
      isGesture_body g ls c
      = Some (mkListening (mkEulerAngle 6 5 5) k s false c
                [mkEulerAngle 5 5 5; mkEulerAngle 6 5 5]).
Proof.
  intros g c0 c rs ls.
  assert (Hr : record_reaches rs).
  { apply (record_reaches_next record_init rs (mkCollector rest 5 5 5));
      [constructor|reflexivity]. }
  assert (Hl : isGesture_reaches g c0 ls).
  { apply (isGesture_reaches_next g c0 (isGesture_init c0) ls
             (mkCollector rest 5 5 5)).
    - constructor.
    - vm_compute. reflexivity.
    - simpl. discriminate.
    - reflexivity. }
  destruct (minorChange_is_never_set g c0 c rs ls Hr Hl)
    as (_ & _ & _ & _ & Hrec & Hlis).
  split.
  - apply Hrec; [simpl; discriminate|reflexivity].
  - apply Hlis; [vm_compute; reflexivity|reflexivity].
Defined.

(** ** Streams that stand still or jitter *)

(** The same in [isGesture], whose turns may also end the loop. *)
Lemma isGesture_loop_still (g : Gesture) (n : Z) (w : EulerAngle)
  (poses : list Pose) (st : Listening) :
  lastAngle st = w ->
  minorChange st = false ->
  shown (final (isGesture_loop g n st (map (fun p => sample p w) poses)))
  = shown st.
Proof.
  revert st. induction poses as [|p poses IH]; intros st Hw Hm; simpl.
  - destruct (correct st <? n); [|reflexivity].
    destruct (Pose_eqb (currentPose (collector st)) waveOut); reflexivity.
  - destruct (correct st <? n); [|reflexivity].
    destruct (Pose_eqb (currentPose (collector st)) waveOut);
      [reflexivity|].
    unfold isGesture_body.
    rewrite Hm, debounce_flag_down, Hw, sameAngle_sample.
    destruct (EulerAngle_eqb_spec w w); [|congruence].
    rewrite IH; reflexivity.
Qed.

(** Once [w] was emitted, samples that all show [w] add nothing to the
    gesture, whether a stop pose ends the loop or not. *)
Lemma record_loop_still_gesture (w : EulerAngle) (poses : list Pose)
  (g : Gesture) :
  lastGesture
    (final (record_loop (mkRecording w false g)
              (map (fun p => sample p w) poses)))
  = g.
Proof.
  induction poses as [|p poses IH]; [reflexivity|].
  cbn [map record_loop]. unfold record_body.
  destruct (Pose_eqb (currentPose (sample p w)) doubleTap); [reflexivity|].
  cbn [rec_lastAngle rec_minorChange lastGesture].
  rewrite debounce_flag_down, sameAngle_sample.
  destruct (EulerAngle_eqb_spec w w); [|congruence].
  exact IH.
Qed.

(** C6. A stream whose samples all show the same waypoint [w] makes the
    debounce lines emit at most once: the first sample is emitted unless
    [w] is the initial [lastAngle] (0,0,0), and every later one is
    dropped.  [record] leaves the gesture [[w]]; it leaves the empty
    gesture when [w] is (0,0,0), when there is no sample, or when the
    first sample already shows the stop pose.  [isGesture] prints and
    processes [w] once; it prints nothing when [w] is (0,0,0), when
    there is no sample, or when its loop takes no turn (a gesture without
    steps, or the abort pose shown at the start). *)
Theorem constant_stream_emits_at_most_once (w : EulerAngle)
  (poses : list Pose) (g : Gesture) (c0 : DataCollector) :
  let hub := map (fun p => sample p w) poses in
  values (getGesture (record hub))
  = (if EulerAngle_eqb w EulerAngle_default then []
     else match poses with
          | [] => []
          | p :: _ => if Pose_eqb p doubleTap then [] else [w]
          end)
  /\ shown (final (isGesture g c0 hub))
     = (if EulerAngle_eqb w EulerAngle_default then []
        else match poses with
             | [] => []
             | _ :: _ =>
                 if (0 <? getNumSteps g)
                    && negb (Pose_eqb (currentPose c0) waveOut)
                 then [w]
                 else []
             end).
Proof.
  intros hub. subst hub. split.
  - unfold record, getGesture, record_init.
    fold (final (record_loop
                   (mkRecording EulerAngle_default false (mkGesture []))
                   (map (fun p => sample p w) poses))).
    destruct (EulerAngle_eqb_spec w EulerAngle_default) as [->|Hw].
    + rewrite record_loop_still_gesture. reflexivity.
    + destruct poses as [|p poses]; [reflexivity|].
      cbn [map record_loop]. unfold record_body.
      cbn [currentPose sample].
      destruct (Pose_eqb p doubleTap); [reflexivity|].
      cbn [rec_lastAngle rec_minorChange lastGesture].
      rewrite debounce_flag_down.
      change (mkCollector p (roll w) (pitch w) (yaw w)) with (sample p w).
      rewrite sameAngle_sample.
      destruct (EulerAngle_eqb_spec w EulerAngle_default); [contradiction|].
      rewrite shownAngle_sample, record_loop_still_gesture. reflexivity.
  - unfold isGesture.
    destruct (EulerAngle_eqb_spec w EulerAngle_default) as [->|Hw].
    + rewrite isGesture_loop_still; reflexivity.
    + destruct poses as [|p poses]; cbn [map isGesture_loop];
        cbn [correct collector isGesture_init].
      * destruct (0 <? getNumSteps g); [|reflexivity].
        destruct (Pose_eqb (currentPose c0) waveOut); reflexivity.
      * destruct (Z.ltb_spec 0 (getNumSteps g)) as [Hn|Hn];
          [|reflexivity].
        destruct (Pose_eqb (currentPose c0) waveOut); [reflexivity|].
        cbn [andb negb].
        unfold isGesture_body.
        cbn [lastAngle minorChange correct strikes shown isGesture_init].
        rewrite debounce_flag_down, sameAngle_sample.
        destruct (EulerAngle_eqb_spec w EulerAngle_default);
          [contradiction|].
        rewrite shownAngle_sample.
        destruct (vector_at_below_numSteps g 0 ltac:(lia)) as [t Ht].
        unfold compare_step, Gesture_equals. rewrite Ht.
        destruct (EulerAngle_equals t w);
          [|destruct (MAX_STRIKES <=? 0)];
          rewrite isGesture_loop_still; reflexivity.
Qed.

(** C1 (the code departs from the claim).  The stream [w, w', w] with
    [w = (5,5,5)] and [w' = (6,5,5)], one step away on the roll axis:
    [record] stores all three waypoints, and [isGesture] prints all three.
    Neither the nudge nor the return is suppressed. *)
Theorem single_jitter_is_emitted :
  let w := mkEulerAngle 5 5 5 in
  let w' := mkEulerAngle 6 5 5 in
  let hub := [sample rest w; sample rest w'; sample rest w] in
  record (hub ++ [sample doubleTap w])
  = (Returned tt, mkRecording w false (mkGesture [w; w'; w]), [])
  /\ shown (final (isGesture (mkGesture [mkEulerAngle 12 12 12])
                     (mkCollector rest 0 0 0) hub))
     = [w; w'; w].
Proof. split; vm_compute; reflexivity. Qed.

(** A turn of [record] on a sample that shows [w], flag down, no stop
    pose: [w] is appended unless it is [lastAngle]. *)
Lemma record_body_sample (st : Recording) (p : Pose) (w : EulerAngle) :
  rec_minorChange st = false ->
  p <> doubleTap ->
  record_body st (sample p w)
  = Continue (if EulerAngle_eqb w (rec_lastAngle st)
              then mkRecording (rec_lastAngle st) false (lastGesture st)
              else mkRecording w false (push_back (lastGesture st) w)).
Proof.
  intros Hm Hp. unfold record_body.
  destruct (Pose_eqb_spec (currentPose (sample p w)) doubleTap) as [E|_];
    [contradiction|].
  rewrite Hm, debounce_flag_down, sameAngle_sample, shownAngle_sample.
  destruct (EulerAngle_eqb w (rec_lastAngle st)); reflexivity.
Qed.

(** Whatever [w] and [w'] are, as long as [w] is not (0,0,0) and [w'] is
    not [w]: [record] stores [w], [w'] and [w] again. *)
Lemma there_and_back_is_recorded (w w' : EulerAngle) :
  w <> EulerAngle_default -> w' <> w ->
  values (getGesture
            (record [sample rest w; sample rest w'; sample rest w]))
  = [w; w'; w].
Proof.
  intros Hw Hw'. unfold record, getGesture, record_init.
  cbn [record_loop].
  rewrite record_body_sample by (reflexivity || discriminate).
  cbn [rec_lastAngle lastGesture].
  destruct (EulerAngle_eqb_spec w EulerAngle_default); [contradiction|].
  rewrite record_body_sample by (reflexivity || discriminate).
  cbn [rec_lastAngle lastGesture].
  destruct (EulerAngle_eqb_spec w' w); [contradiction|].
  rewrite record_body_sample by (reflexivity || discriminate).
  cbn [rec_lastAngle lastGesture].
  destruct (EulerAngle_eqb_spec w w'); [congruence|].
  reflexivity.
Qed.

(** ** The matcher: lines 378-390 *)

(** C4. In a state whose [strikes] has reached [MAX_STRIKES], a turn that
    emits a waypoint [w] which is not within [TOLERANCE] of the current
    target sets [correct] and [strikes] to 0; the next emitted waypoint is
    then compared with the first waypoint of the gesture. *)
Theorem strikes_exhausted_restarts (g : Gesture) (st : Listening)
  (c : DataCollector) (w target : EulerAngle) :
  MAX_STRIKES <= strikes st ->
  debounce (lastAngle st) (minorChange st) c = Pass w ->
  vector_at (values g) (correct st) = Some target ->
  EulerAngle_equals target w = false ->
  exists st',
    isGesture_body g st c = Some st'
    /\ correct st' = 0
    /\ strikes st' = 0
    /\ forall w2,
        Gesture_equals g w2 (correct st')
        = match values g with
          | first :: _ => Some (EulerAngle_equals first w2)
          | [] => None
          end.
Proof.
  intros Hs Hd Ht He.
  exists (mkListening w 0 0 false c (shown st ++ [w])).
  unfold isGesture_body, compare_step, Gesture_equals.
  rewrite Hd, Ht, He.
  destruct (Z.leb_spec MAX_STRIKES (strikes st)); [|lia].
  repeat split. intros w2. simpl.
  destruct (values g); reflexivity.
Qed.

Lemma strikes_exhausted_restarts_witness :
  let g := mkGesture [mkEulerAngle 5 5 5; mkEulerAngle 10 5 5] in
  let st := mkListening (mkEulerAngle 16 16 16) 1 2 false
              (mkCollector rest 16 16 16)
              [mkEulerAngle 5 5 5; mkEulerAngle 15 15 15;
               mkEulerAngle 16 16 16] in
  exists st',
    isGesture_body g st (mkCollector rest 15 15 15) = Some st'
    /\ correct st' = 0
    /\ strikes st' = 0
    /\ forall w2,
        Gesture_equals g w2 (correct st')
        = Some (EulerAngle_equals (mkEulerAngle 5 5 5) w2).
Proof.
  intros g st.
  apply (strikes_exhausted_restarts g st (mkCollector rest 15 15 15)
           (mkEulerAngle 15 15 15) (mkEulerAngle 10 5 5)).
  - vm_compute. discriminate.
  - reflexivity.
  - reflexivity.
  - reflexivity.
Defined.

(** The restart scenario: after the first waypoint of
    [(5,5,5), (10,5,5)] three mismatches in a row bring [correct] back to
    0, and the second waypoint alone no longer completes the gesture. *)
Example restart_scenario :
  let g := mkGesture [mkEulerAngle 5 5 5; mkEulerAngle 10 5 5] in
  let far := [sample rest (mkEulerAngle 5 5 5);
              sample rest (mkEulerAngle 15 15 15);
              sample rest (mkEulerAngle 16 16 16);
              sample rest (mkEulerAngle 15 15 15)] in
  let c0 := mkCollector rest 0 0 0 in
  correct (final (isGesture g c0 far)) = 0
  /\ strikes (final (isGesture g c0 far)) = 0
  /\ status (isGesture g c0 (far ++ [sample rest (mkEulerAngle 10 5 5)]))
     = Waiting
  /\ status (isGesture g c0 (far ++ [sample rest (mkEulerAngle 5 5 5);
                                     sample rest (mkEulerAngle 10 5 5)]))
     = Returned true.
Proof. repeat split; vm_compute; reflexivity. Qed.

(** C5. In a turn of the loop ([correct < numSteps]) that emits a waypoint
    [w] within [TOLERANCE] of the current target, [correct] grows by one
    and [strikes] keeps its value. *)
Theorem confirmed_step_keeps_strikes (g : Gesture) (st : Listening)
  (c : DataCollector) (w target : EulerAngle) :
  correct st < getNumSteps g ->
  debounce (lastAngle st) (minorChange st) c = Pass w ->
  vector_at (values g) (correct st) = Some target ->
  EulerAngle_equals target w = true ->
  exists st',
    isGesture_body g st c = Some st'
    /\ correct st' = correct st + 1
    /\ strikes st' = strikes st.
Proof.
  intros Hlt Hd Ht He.
  exists (mkListening w (int_add (correct st) 1) (strikes st) false c
            (shown st ++ [w])).
  unfold isGesture_body, compare_step, Gesture_equals.
  rewrite Hd, Ht, He. repeat split. simpl.
  apply (int_add_1_below (correct st) (getNumSteps g));
    [|apply getNumSteps_range].
  split; [|exact Hlt].
  unfold vector_at in Ht.
  destruct (Z.ltb_spec (correct st) 0); [discriminate|assumption].
Qed.

Lemma confirmed_step_keeps_strikes_witness :
  let g := mkGesture [mkEulerAngle 5 5 5; mkEulerAngle 10 5 5] in
  let st := mkListening (mkEulerAngle 15 15 15) 0 2 false
              (mkCollector rest 15 15 15) [mkEulerAngle 15 15 15] in
  exists st',
    isGesture_body g st (mkCollector rest 6 4 7) = Some st'
    /\ correct st' = 1
    /\ strikes st' = 2.
Proof.
  intros g st.
  apply (confirmed_step_keeps_strikes g st (mkCollector rest 6 4 7)
           (mkEulerAngle 6 4 7) (mkEulerAngle 5 5 5)).
  - vm_compute. reflexivity.
  - reflexivity.
  - reflexivity.
  - reflexivity.
Defined.

(** ** What isGesture returns *)

(** Every [return] of [isGesture] is [return true]. *)
Lemma isGesture_loop_returns_true (g : Gesture) (n : Z) (hub : Hub)
  (st : Listening) (b : bool) :
  status (isGesture_loop g n st hub) = Returned b -> b = true.
Proof.
  unfold status.
  revert st. induction hub as [|c hub IH]; intros st; simpl.
  - destruct (correct st <? n);
      [destruct (Pose_eqb (currentPose (collector st)) waveOut)|];
      simpl; congruence.
  - destruct (correct st <? n); [|simpl; congruence].
    destruct (Pose_eqb (currentPose (collector st)) waveOut);
      [simpl; congruence|].
    destruct (isGesture_body g st c) as [st'|]; [apply IH|].
    simpl; congruence.
Qed.

(** C2 (as the code has it). When the collector already shows the abort
    pose [waveOut] as [isGesture] starts, the call ends at once: no sample
    is consumed, [correct] is still 0, and the value returned is [true].
    [true] is also the only value [isGesture] ever returns, so the value
    does not tell an aborted session from a completed one. *)
Theorem abort_first_returns_true (g : Gesture) (c0 : DataCollector)
  (hub : Hub) :
  currentPose c0 = waveOut ->
  isGesture g c0 hub = (Returned true, isGesture_init c0, hub)
  /\ forall (c0' : DataCollector) (hub' : Hub) (b : bool),
      status (isGesture g c0' hub') = Returned b -> b = true.
Proof.
  intros Hp. split.
  - unfold isGesture.
    destruct hub as [|c hub]; simpl; rewrite Hp; simpl;
      destruct (0 <? getNumSteps g); reflexivity.
  - intros c0' hub' b. apply isGesture_loop_returns_true.
Qed.

Lemma abort_first_returns_true_witness :
  let g := mkGesture [mkEulerAngle 5 5 5] in
  let c0 := mkCollector waveOut 0 0 0 in
  let hub := [sample rest (mkEulerAngle 5 5 5)] in
  isGesture g c0 hub = (Returned true, isGesture_init c0, hub)
  /\ forall (c0' : DataCollector) (hub' : Hub) (b : bool),
      status (isGesture g c0' hub') = Returned b -> b = true.
Proof.
  intros g c0 hub. apply (abort_first_returns_true g c0 hub). reflexivity.
Defined.

(** C2 fails as stated: for the gesture [(5,5,5)], a session aborted
    before its first sample (progress 0 of 1) and a session completed by
    the sample (5,5,5) (progress 1 of 1) return the same value. *)
Lemma abort_returns_what_completion_returns :
  let g := mkGesture [mkEulerAngle 5 5 5] in
  let hub := [sample rest (mkEulerAngle 5 5 5)] in
  let aborted := isGesture g (mkCollector waveOut 0 0 0) hub in
  let done := isGesture g (mkCollector rest 0 0 0) hub in
  ~ completed g (final aborted)
  /\ completed g (final done)
  /\ status aborted = Returned true
  /\ status done = Returned true
  /\ ~ (status aborted <> status done).
Proof.
  intros g hub aborted done.
  assert (Ea : aborted = (Returned true,
                          isGesture_init (mkCollector waveOut 0 0 0), hub))
    by reflexivity.
  assert (Ed : done = (Returned true,
                       mkListening (mkEulerAngle 5 5 5) 1 0 false
                         (sample rest (mkEulerAngle 5 5 5))
                         [mkEulerAngle 5 5 5], []))
    by reflexivity.
  assert (En : getNumSteps g = 1) by reflexivity.
  rewrite Ea, Ed. unfold completed. rewrite En. simpl.
  repeat split; try lia; try reflexivity.
  intros H; apply H; reflexivity.
Qed.

(** C10. For a gesture without steps, [isGesture] returns [true] before
    the first turn of its loop: the pose of the collector is not looked
    at, no sample is consumed, nothing is printed, whatever the collector
    shows and whatever the device would deliver. *)
Theorem empty_gesture_matches_at_once (g : Gesture) (c0 : DataCollector)
  (hub : Hub) :
  getNumSteps g = 0 ->
  isGesture g c0 hub = (Returned true, isGesture_init c0, hub).
Proof.
  intros Hn. unfold isGesture. rewrite Hn.
  destruct hub; reflexivity.
Qed.

Lemma empty_gesture_matches_at_once_witness :
  isGesture (mkGesture []) (mkCollector waveOut 3 4 5)
    [sample rest (mkEulerAngle 5 5 5)]
  = (Returned true, isGesture_init (mkCollector waveOut 3 4 5),
     [sample rest (mkEulerAngle 5 5 5)])
  /\ isGesture (mkGesture []) (mkCollector rest 0 0 0) []
     = (Returned true, isGesture_init (mkCollector rest 0 0 0), []).
Proof.
  split; apply empty_gesture_matches_at_once; reflexivity.
Defined.

(** ** The library *)

Lemma string_compare_refl (k : string) : String.compare k k = Eq.
Proof.
  pose proof (String.compare_antisym k k) as H.
  destruct (String.compare k k); simpl in H; congruence.
Qed.

Lemma string_compare_Gt (a b : string) :
  String.compare a b = Gt -> string_lt b a.
Proof.
  unfold string_lt. intros H.
  rewrite String.compare_antisym, H. reflexivity.
Qed.

Lemma string_lt_trans (a b c : string) :
  string_lt a b -> string_lt b c -> string_lt a c.
Proof.
  exact (@RelationClasses.StrictOrder_Transitive _ _
           String_as_OT.lt_strorder a b c).
Qed.

Lemma string_lt_leb (a b : string) : string_lt a b -> String.leb a b = true.
Proof. unfold string_lt, String.leb. intros ->. reflexivity. Qed.

Lemma string_leb_refl (a : string) : String.leb a a = true.
Proof. unfold String.leb. rewrite string_compare_refl. reflexivity. Qed.

(** [map_put] adds its key to the keys and nothing else. *)
Lemma map_put_keys (k : string) (v : GesturePtr) (m : StringMap)
  (k' : string) :
  In k' (keys (map_put k v m)) <-> k' = k \/ In k' (keys m).
Proof.
  induction m as [|[k0 v0] m IH]; simpl.
  - intuition.
  - destruct (String.compare k k0) eqn:E; simpl.
    + apply String.compare_eq_iff in E. subst k0. intuition.
    + intuition.
    + rewrite IH. intuition.
Qed.

Lemma map_put_HdRel (k : string) (v : GesturePtr) (m : StringMap)
  (k0 : string) :
  string_lt k0 k -> HdRel string_lt k0 (keys m) ->
  HdRel string_lt k0 (keys (map_put k v m)).
Proof.
  intros Hk Hm. destruct m as [|[k1 v1] m]; simpl.
  - constructor. exact Hk.
  - inversion Hm; subst.
    destruct (String.compare k k1); simpl; constructor; assumption.
Qed.

(** [map_put] keeps the keys in strictly ascending order. *)
Lemma map_put_sorted (k : string) (v : GesturePtr) (m : StringMap) :
  Sorted string_lt (keys m) -> Sorted string_lt (keys (map_put k v m)).
Proof.
  induction m as [|[k0 v0] m IH]; simpl; intros Hs.
  - repeat constructor.
  - inversion Hs as [|? ? Hs' Hhd]; subst.
    destruct (String.compare k k0) eqn:E; simpl.
    + apply String.compare_eq_iff in E. subst k0.
      constructor; assumption.
    + constructor; [exact Hs|]. constructor. exact E.
    + constructor; [apply IH; exact Hs'|].
      apply map_put_HdRel; [apply string_compare_Gt; exact E|exact Hhd].
Qed.

(** A key just put is found, with the value put. *)
Lemma map_find_put (k : string) (v : GesturePtr) (m : StringMap) :
  map_find k (map_put k v m) = Some v.
Proof.
  induction m as [|[k0 v0] m IH]; simpl.
  - rewrite string_compare_refl. reflexivity.
  - destruct (String.compare k k0) eqn:E; simpl.
    + rewrite string_compare_refl. reflexivity.
    + rewrite string_compare_refl. reflexivity.
    + rewrite E. exact IH.
Qed.

(** Putting an unbound key adds one binding. *)
Lemma map_put_length (k : string) (v : GesturePtr) (m : StringMap) :
  map_find k m = None ->
  List.length (map_put k v m) = S (List.length m).
Proof.
  induction m as [|[k0 v0] m IH]; simpl; [reflexivity|].
  destruct (String.compare k k0); simpl; intros H.
  - discriminate.
  - reflexivity.
  - rewrite IH by exact H. reflexivity.
Qed.

(** In a sorted map, [map_find] finds exactly the bound keys. *)
Lemma map_find_None (k : string) (m : StringMap) :
  Sorted string_lt (keys m) ->
  (map_find k m = None <-> ~ In k (keys m)).
Proof.
  intros Hs. apply Sorted_StronglySorted in Hs;
    [|intros a b c; apply string_lt_trans].
  induction m as [|[k0 v0] m IH]; simpl.
  - intuition.
  - inversion Hs as [|? ? Hs' Hall]; subst.
    destruct (String.compare k k0) eqn:E.
    + apply String.compare_eq_iff in E. subst k0.
      split; [discriminate|]. intros H. exfalso. apply H. left. reflexivity.
    + split; [|reflexivity]. intros _ [->|Hin].
      * rewrite string_compare_refl in E. discriminate.
      * rewrite Forall_forall in Hall. specialize (Hall k Hin).
        pose proof (string_lt_trans k k0 k E Hall) as Hkk.
        unfold string_lt in Hkk. rewrite string_compare_refl in Hkk.
        discriminate.
    + rewrite (IH Hs'). split.
      * intros Hn [->|Hin]; [|contradiction].
        rewrite string_compare_refl in E. discriminate.
      * intros Hn Hin. apply Hn. right. exact Hin.
Qed.

(** What [save] does to the keys. *)
Lemma save_keys (name : string) (g : Gesture) (lib : Gestures)
  (k' : string) :
  In k' (keys (gest (save name g lib)))
  <-> k' = name \/ In k' (keys (gest lib)).
Proof.
  unfold save, map_subscript. simpl. rewrite map_put_keys.
  destruct (map_find name (gest lib)); simpl; [reflexivity|].
  rewrite map_put_keys. intuition.
Qed.

Lemma save_sorted (name : string) (g : Gesture) (lib : Gestures) :
  Sorted string_lt (keys (gest lib)) ->
  Sorted string_lt (keys (gest (save name g lib))).
Proof.
  intros Hs. unfold save, map_subscript. simpl. apply map_put_sorted.
  destruct (map_find name (gest lib)); simpl;
    [exact Hs|apply map_put_sorted; exact Hs].
Qed.

Lemma save_all_sorted (saved : list (string * Gesture)) (lib : Gestures) :
  Sorted string_lt (keys (gest lib)) ->
  Sorted string_lt (keys (gest (save_all saved lib))).
Proof.
  revert lib. induction saved as [|[n g] saved IH]; intros lib Hs; simpl.
  - exact Hs.
  - apply IH. apply save_sorted. exact Hs.
Qed.

Lemma save_all_keys (saved : list (string * Gesture)) (lib : Gestures)
  (k' : string) :
  In k' (keys (gest (save_all saved lib)))
  <-> In k' (map fst saved) \/ In k' (keys (gest lib)).
Proof.
  revert lib. induction saved as [|[n g] saved IH]; intros lib; simpl.
  - intuition.
  - rewrite IH, save_keys. simpl. intuition.
Qed.

(** [keyAt(0)] is the key at [begin()]. *)
Lemma keyAt_0 (lib : Gestures) : keyAt lib 0 = hd_error (keys (gest lib)).
Proof.
  unfold keyAt. destruct (gest lib) as [|[k v] m]; reflexivity.
Qed.

(** [keyAt(n)] for any other [n] runs past the last binding and returns
    nothing. *)
Lemma keyAt_other (lib : Gestures) (n : Z) : n <> 0 -> keyAt lib n = None.
Proof.
  intros Hn. unfold keyAt.
  induction (gest lib) as [|[k v] m IH]; cbn [keyAt_loop]; [reflexivity|].
  destruct (Z.eqb_spec 0 n); [congruence|exact IH].
Qed.

(** C7 (as the code has it). Looking up a name that the library does not
    hold, [gestures.gest[name]], is no error: it yields the null pointer
    and leaves the library with one binding more, the name bound to the
    null pointer. *)
Theorem lookup_of_absent_name_binds_null (lib : Gestures) (name : string) :
  Sorted string_lt (keys (gest lib)) ->
  ~ In name (keys (gest lib)) ->
  fst (lookup lib name) = nullptr
  /\ map_find name (gest (snd (lookup lib name))) = Some nullptr
  /\ List.length (gest (snd (lookup lib name)))
     = S (List.length (gest lib)).
Proof.
  intros Hs Hn. apply (map_find_None name (gest lib) Hs) in Hn.
  unfold lookup, map_subscript. rewrite Hn. simpl.
  split; [reflexivity|]. split.
  - apply map_find_put.
  - apply map_put_length. exact Hn.
Qed.

Lemma lookup_of_absent_name_binds_null_witness :
  let lib := save "bend" (mkGesture [mkEulerAngle 5 5 5]) Gestures_empty in
  fst (lookup lib "wave") = nullptr
  /\ map_find "wave" (gest (snd (lookup lib "wave"))) = Some nullptr
  /\ List.length (gest (snd (lookup lib "wave")))
     = S (List.length (gest lib)).
Proof.
  intros lib. apply (lookup_of_absent_name_binds_null lib "wave").
  - repeat constructor.
  - simpl. intros [H|[]]. discriminate H.
Defined.

(** C7 fails as stated: in a library that holds only "bend", the lookup
    of "wave" returns (the null pointer) and the library then holds a
    binding for "wave". *)
Lemma lookup_of_absent_name_returns :
  let g := mkGesture [mkEulerAngle 5 5 5] in
  let lib := save "bend" g Gestures_empty in
  ~ In "wave"%string (keys (gest lib))
  /\ lookup lib "wave"
     = (nullptr, mkGestures [("bend"%string, Some g);
                             ("wave"%string, nullptr)]).
Proof.
  intros g lib. split; [|reflexivity].
  simpl. intros [H|[]]. discriminate H.
Qed.

(** C8 (as the code has it). After any saves into the empty library, the
    library iterates its names in ascending order of the names, each name
    once, whatever the order of the saves; [keyAt(0)], the first line of
    the menu, is the least name saved. *)
Theorem keyAt_0_is_least_saved_name (saved : list (string * Gesture)) :
  saved <> [] ->
  let lib := save_all saved Gestures_empty in
  Sorted string_lt (keys (gest lib))
  /\ (forall k, In k (keys (gest lib)) <-> In k (map fst saved))
  /\ exists k,
      keyAt lib 0 = Some k
      /\ In k (map fst saved)
      /\ forall k', In k' (map fst saved) -> String.leb k k' = true.
Proof.
  intros Hne lib.
  assert (Hs : Sorted string_lt (keys (gest lib))).
  { apply save_all_sorted. constructor. }
  assert (Hk : forall k, In k (keys (gest lib)) <-> In k (map fst saved)).
  { intros k. unfold lib. rewrite save_all_keys. simpl. intuition. }
  split; [exact Hs|]. split; [exact Hk|].
  rewrite keyAt_0.
  destruct (keys (gest lib)) as [|k ks] eqn:E.
  - exfalso. destruct saved as [|[n g] saved]; [congruence|].
    apply (proj2 (Hk n)). left. reflexivity.
  - exists k. split; [reflexivity|]. split.
    + apply Hk. left. reflexivity.
    + intros k' Hin. apply Hk in Hin.
      apply Sorted_StronglySorted in Hs;
        [|intros a b c; apply string_lt_trans].
      inversion Hs as [|? ? _ Hall]; subst.
      destruct Hin as [<-|Hin]; [apply string_leb_refl|].
      apply string_lt_leb. rewrite Forall_forall in Hall.
      apply Hall. exact Hin.
Qed.

Lemma keyAt_0_is_least_saved_name_witness :
  let saved := [("wave"%string, mkGesture [mkEulerAngle 5 5 5]);
                ("bend"%string, mkGesture [mkEulerAngle 9 9 9])] in
  let lib := save_all saved Gestures_empty in
  Sorted string_lt (keys (gest lib))
  /\ (forall k, In k (keys (gest lib)) <-> In k (map fst saved))
  /\ exists k,
      keyAt lib 0 = Some k
      /\ In k (map fst saved)
      /\ forall k', In k' (map fst saved) -> String.leb k k' = true.
Proof.
  intros saved. apply (keyAt_0_is_least_saved_name saved). discriminate.
Defined.

(** C8 fails as stated: "wave" is saved first and "bend" second, and
    [keyAt(0)] is "bend". *)
Lemma keyAt_0_is_not_first_saved :
  let saved := [("wave"%string, mkGesture [mkEulerAngle 5 5 5]);
                ("bend"%string, mkGesture [mkEulerAngle 9 9 9])] in
  let lib := save_all saved Gestures_empty in
  nth_error (map fst saved) 0 = Some "wave"%string
  /\ keyAt lib 0 = Some "bend"%string
  /\ keyAt lib 0 <> nth_error (map fst saved) 0.
Proof.
  intros saved lib. split; [reflexivity|]. split; [reflexivity|].
  discriminate.
Qed.

Example menu_of_two_saves :
  let lib := save "bend" (mkGesture [mkEulerAngle 9 9 9])
               (save "wave" (mkGesture [mkEulerAngle 5 5 5])
                  Gestures_empty) in
  getSize lib = 2 /\ menu lib 2 = [Some "bend"%string; None].
Proof. split; reflexivity. Qed.

(** ** The quantiser *)

Section QuantizerFacts.
Local Open Scope R_scope.

Lemma atan_nonpos (x : R) : x <= 0 -> atan x <= 0.
Proof.
  intros [Hlt | ->].
  - left. rewrite <- atan_0. apply atan_increasing. exact Hlt.
  - rewrite atan_0. lra.
Qed.

Lemma atan_pos (x : R) : 0 < x -> 0 < atan x.
Proof. intros H. rewrite <- atan_0. apply atan_increasing. exact H. Qed.

(** [std::atan2] stays within [-PI, PI]. *)
Lemma atan2_bounds (y x : R) : - PI <= atan2 y x <= PI.
Proof.
  pose proof PI_RGT_0 as Hpi. unfold atan2.
  destruct (Rlt_dec 0 x) as [Hx|Hx].
  - pose proof (atan_bound (y / x)). lra.
  - destruct (Rlt_dec x 0) as [Hx'|Hx'].
    + pose proof (atan_bound (y / x)) as Hb.
      destruct (Rle_dec 0 y) as [Hy|Hy].
      * assert (y / x <= 0).
        { unfold Rdiv. rewrite <- (Rmult_0_l (/ x)).
          apply Rmult_le_compat_neg_l with (r := / x) in Hy.
          - rewrite Rmult_0_r in Hy. rewrite Rmult_comm in Hy.
            rewrite Rmult_0_l. exact Hy.
          - left. apply Rinv_lt_0_compat. exact Hx'. }
        pose proof (atan_nonpos _ H). lra.
      * assert (0 < y / x).
        { unfold Rdiv. replace (y * / x) with ((- y) * (- / x)) by ring.
          apply Rmult_lt_0_compat; [lra|].
          pose proof (Rinv_lt_0_compat x Hx'). lra. }
        pose proof (atan_pos _ H). lra.
    + destruct (Rlt_dec 0 y); [lra|].
      destruct (Rlt_dec y 0); lra.
Qed.

(** The clamped argument keeps [asin] within [-PI/2, PI/2]. *)
Lemma euler_pitch_bounds (quat : Quaternion) :
  - (PI / 2) <= euler_pitch quat <= PI / 2.
Proof.
  unfold euler_pitch. apply asin_bound.
Qed.

Lemma static_cast_int_bounds (r : R) (n : Z) :
  0 <= r <= IZR n -> (0 <= static_cast_int r <= n)%Z.
Proof.
  intros [H0 Hn]. unfold static_cast_int.
  destruct (Rle_dec 0 r) as [_|Hneg]; [|contradiction].
  destruct (base_Int_part r) as [Hle Hgt]. split.
  - assert (Hm : (-1 < Int_part r)%Z) by (apply lt_IZR; lra). lia.
  - apply le_IZR. lra.
Qed.

Lemma static_cast_int_IZR (n : Z) : (0 <= n)%Z -> static_cast_int (IZR n) = n.
Proof.
  intros Hn. unfold static_cast_int.
  destruct (Rle_dec 0 (IZR n)) as [_|Hneg].
  - symmetry. apply Int_part_spec. lra.
  - exfalso. apply Hneg. apply IZR_le in Hn. exact Hn.
Qed.

(** The fraction of the full turn, and of the half turn. *)
Lemma full_turn_fraction (a : R) :
  - PI <= a <= PI -> 0 <= (a + PI) / (PI * 2) * 18 <= 18.
Proof.
  pose proof PI_RGT_0 as Hpi. intros [Hlo Hhi].
  assert (Hinv : 0 < / (PI * 2)) by (apply Rinv_0_lt_compat; lra).
  assert (H0 : 0 <= (a + PI) / (PI * 2)).
  { unfold Rdiv. apply Rmult_le_pos; lra. }
  assert (H1 : (a + PI) / (PI * 2) <= 1).
  { unfold Rdiv. replace 1 with ((PI * 2) * / (PI * 2)) by (field; lra).
    apply Rmult_le_compat_r; lra. }
  lra.
Qed.

Lemma half_turn_fraction (a : R) :
  - (PI / 2) <= a <= PI / 2 -> 0 <= (a + PI / 2) / PI * 18 <= 18.
Proof.
  pose proof PI_RGT_0 as Hpi. intros [Hlo Hhi].
  assert (Hinv : 0 < / PI) by (apply Rinv_0_lt_compat; lra).
  assert (H0 : 0 <= (a + PI / 2) / PI).
  { unfold Rdiv at 2. apply Rmult_le_pos; lra. }
  assert (H1 : (a + PI / 2) / PI <= 1).
  { unfold Rdiv at 2. replace 1 with (PI * / PI) by (field; lra).
    apply Rmult_le_compat_r; lra. }
  lra.
Qed.

(** C3 (as the code has it). For every valid orientation, that is every
    unit quaternion, roll and yaw lie in [-PI, PI] and pitch in
    [-PI/2, PI/2], and each of [roll_w], [pitch_w] and [yaw_w] that
    [onOrientationData] stores lies between 0 and 18, both included. *)
Theorem quantized_axes_within_0_18 (c : DataCollector) (quat : Quaternion) :
  unit_quaternion quat ->
  let c' := onOrientationData c quat in
  (- PI <= euler_roll quat <= PI
   /\ - (PI / 2) <= euler_pitch quat <= PI / 2
   /\ - PI <= euler_yaw quat <= PI)
  /\ (0 <= roll_w c' <= 18)%Z
  /\ (0 <= pitch_w c' <= 18)%Z
  /\ (0 <= yaw_w c' <= 18)%Z.
Proof.
  intros _. simpl. unfold scale_roll, scale_pitch, scale_yaw.
  split; [|split; [|split]].
  - split; [apply atan2_bounds|]. split; [apply euler_pitch_bounds|].
    apply atan2_bounds.
  - apply static_cast_int_bounds, full_turn_fraction, atan2_bounds.
  - apply static_cast_int_bounds, half_turn_fraction, euler_pitch_bounds.
  - apply static_cast_int_bounds, full_turn_fraction, atan2_bounds.
Qed.

Lemma quantized_axes_within_0_18_witness :
  let quat := mkQuaternion 0 1 0 0 in
  let c' := onOrientationData (mkCollector rest 0 0 0) quat in
  (- PI <= euler_roll quat <= PI
   /\ - (PI / 2) <= euler_pitch quat <= PI / 2
   /\ - PI <= euler_yaw quat <= PI)
  /\ (0 <= roll_w c' <= 18)%Z
  /\ (0 <= pitch_w c' <= 18)%Z
  /\ (0 <= yaw_w c' <= 18)%Z.
Proof.
  intros quat.
  apply (quantized_axes_within_0_18 (mkCollector rest 0 0 0) quat).
  unfold unit_quaternion, quat. simpl. ring.
Defined.

(** C3 fails as stated: the unit quaternion (w,x,y,z) = (0,1,0,0) has
    roll [PI], and its [roll_w] is 18, above 17. *)
Lemma quantized_roll_reaches_18 :
  let quat := mkQuaternion 0 1 0 0 in
  unit_quaternion quat
  /\ euler_roll quat = PI
  /\ roll_w (onOrientationData (mkCollector rest 0 0 0) quat) = 18%Z
  /\ ~ (0 <= roll_w (onOrientationData (mkCollector rest 0 0 0) quat)
        <= 17)%Z.
Proof.
  intros quat.
  assert (Hroll : euler_roll quat = PI).
  { unfold euler_roll, quat. simpl.
    replace (2 * (0 * 1 + 0 * 0)) with 0 by ring.
    replace (1 - 2 * (1 * 1 + 0 * 0)) with (-1) by ring.
    unfold atan2.
    destruct (Rlt_dec 0 (-1)) as [H|_]; [lra|].
    destruct (Rlt_dec (-1) 0) as [_|H]; [|lra].
    destruct (Rle_dec 0 0) as [_|H]; [|lra].
    replace (0 / -1) with 0 by (field; lra).
    rewrite atan_0. ring. }
  assert (Hw : roll_w (onOrientationData (mkCollector rest 0 0 0) quat)
               = 18%Z).
  { simpl. rewrite Hroll. unfold scale_roll.
    replace ((PI + PI) / (PI * 2) * 18) with (IZR 18)
      by (pose proof PI_RGT_0; field; lra).
    apply static_cast_int_IZR. lia. }
  split; [unfold unit_quaternion, quat; simpl; ring|].
  split; [exact Hroll|]. split; [exact Hw|].
  rewrite Hw. lia.
Qed.

(** Below the top of the range the scaled value stays below 18. *)
Lemma scale_roll_below_top (a : R) :
  - PI <= a < PI -> (0 <= scale_roll a <= 17)%Z.
Proof.
  pose proof PI_RGT_0 as Hpi. intros [Hlo Hhi]. unfold scale_roll.
  destruct (full_turn_fraction a ltac:(lra)) as [H0 H18].
  set (r := (a + PI) / (PI * 2) * 18) in *.
  assert (Hlt : r < 18).
  { unfold r. assert (Hinv : 0 < / (PI * 2))
      by (apply Rinv_0_lt_compat; lra).
    assert ((a + PI) / (PI * 2) < 1).
    { unfold Rdiv. replace 1 with ((PI * 2) * / (PI * 2)) by (field; lra).
      apply Rmult_lt_compat_r; lra. }
    lra. }
  destruct (static_cast_int_bounds r 18 ltac:(lra)) as [Hz _].
  split; [exact Hz|].
  unfold static_cast_int in *.
  destruct (Rle_dec 0 r) as [_|Hneg]; [|contradiction].
  destruct (base_Int_part r) as [Hle _].
  assert ((Int_part r < 18)%Z) by (apply lt_IZR; lra). lia.
Qed.

End QuantizerFacts.

(* ================================================================= *)
(** * Further properties *)

(** ** EulerAngle::equals *)

Lemma to_int_decompose (z : Z) : exists k, z = to_int z + k * 2 ^ 32.
Proof.
  exists ((z + 2 ^ 31) / 2 ^ 32). unfold to_int.
  pose proof (Z.div_mod (z + 2 ^ 31) (2 ^ 32) ltac:(lia)). lia.
Qed.

Lemma to_int_periodic (z k : Z) : to_int (z + k * 2 ^ 32) = to_int z.
Proof.
  unfold to_int.
  replace (z + k * 2 ^ 32 + 2 ^ 31) with (z + 2 ^ 31 + k * 2 ^ 32) by lia.
  rewrite Z.mod_add by lia. reflexivity.
Qed.

(** Negation in [int]: exact, except that [INT_MIN] is its own
    negative. *)
Lemma to_int_opp (z : Z) :
  to_int (- z) = if to_int z =? INT_MIN then INT_MIN else - to_int z.
Proof.
  destruct (to_int_decompose z) as [k Hk].
  pose proof (to_int_range z) as Hr. unfold is_int, INT_MIN, INT_MAX in Hr.
  replace (- z) with (- to_int z + (- k) * 2 ^ 32) by lia.
  rewrite to_int_periodic.
  destruct (Z.eqb_spec (to_int z) INT_MIN) as [E|E].
  - rewrite E. reflexivity.
  - apply to_int_id. unfold is_int, INT_MIN, INT_MAX in *. lia.
Qed.

(** [std::abs(a - b)] and [std::abs(b - a)] are the same [int], overflow
    included. *)
Lemma int_abs_sub_sym (a b : Z) :
  int_abs (int_sub a b) = int_abs (int_sub b a).
Proof.
  unfold int_abs, int_sub.
  replace (b - a) with (- (a - b)) by lia. rewrite to_int_opp.
  destruct (Z.eqb_spec (to_int (a - b)) INT_MIN) as [E|E].
  - rewrite E. reflexivity.
  - rewrite Z.abs_opp. reflexivity.
Qed.

(** Without overflow, [std::abs(a - b)] is the distance of [a] and [b]. *)
Lemma int_abs_sub_exact (a b : Z) :
  INT_MIN < a - b <= INT_MAX -> int_abs (int_sub a b) = Z.abs (a - b).
Proof.
  intros H. unfold int_abs, int_sub.
  rewrite (to_int_id (a - b)) by (unfold is_int; lia).
  apply to_int_id. unfold is_int, INT_MIN, INT_MAX in *. lia.
Qed.

Lemma EulerAngle_equals_refl (a : EulerAngle) :
  EulerAngle_equals a a = true.
Proof.
  unfold EulerAngle_equals, int_abs, int_sub.
  rewrite !Z.sub_diag. reflexivity.
Qed.

(** X1. [EulerAngle::equals] relates every waypoint to itself and does not
    depend on which of the two waypoints is asked, for all [int] fields,
    overflowing differences included. *)
Theorem EulerAngle_equals_refl_sym (a b : EulerAngle) :
  EulerAngle_equals a a = true
  /\ EulerAngle_equals a b = EulerAngle_equals b a.
Proof.
  split; [apply EulerAngle_equals_refl|].
  unfold EulerAngle_equals.
  rewrite (int_abs_sub_sym (roll a)), (int_abs_sub_sym (pitch a)),
    (int_abs_sub_sym (yaw a)). reflexivity.
Qed.

(** X2. Where the three differences do not overflow, [EulerAngle::equals]
    holds exactly when the waypoints are at most [TOLERANCE] apart on
    every axis. *)
Theorem EulerAngle_equals_iff (a b : EulerAngle) :
  INT_MIN < roll a - roll b <= INT_MAX ->
  INT_MIN < pitch a - pitch b <= INT_MAX ->
  INT_MIN < yaw a - yaw b <= INT_MAX ->
  EulerAngle_equals a b = true
  <-> Z.abs (roll a - roll b) <= TOLERANCE
      /\ Z.abs (pitch a - pitch b) <= TOLERANCE
      /\ Z.abs (yaw a - yaw b) <= TOLERANCE.
Proof.
  intros Hr Hp Hy. unfold EulerAngle_equals.
  rewrite !int_abs_sub_exact by assumption.
  rewrite !andb_true_iff, !Z.leb_le. tauto.
Qed.

Lemma EulerAngle_equals_iff_witness :
  EulerAngle_equals (mkEulerAngle 5 5 5) (mkEulerAngle 7 3 5) = true
  <-> Z.abs (5 - 7) <= TOLERANCE
      /\ Z.abs (5 - 3) <= TOLERANCE
      /\ Z.abs (5 - 5) <= TOLERANCE.
Proof.
  apply (EulerAngle_equals_iff (mkEulerAngle 5 5 5) (mkEulerAngle 7 3 5));
    simpl; unfold INT_MIN, INT_MAX; lia.
Defined.

(** [EulerAngle::equals] does not chain: (0,0,0) is within tolerance of
    (2,0,0), and (2,0,0) of (4,0,0), but (0,0,0) is not of (4,0,0).  With
    an overflowing difference it even accepts waypoints that are
    [2^31] apart. *)
Example EulerAngle_equals_not_transitive :
  EulerAngle_equals (mkEulerAngle 0 0 0) (mkEulerAngle 2 0 0) = true
  /\ EulerAngle_equals (mkEulerAngle 2 0 0) (mkEulerAngle 4 0 0) = true
  /\ EulerAngle_equals (mkEulerAngle 0 0 0) (mkEulerAngle 4 0 0) = false
  /\ EulerAngle_equals (mkEulerAngle INT_MIN 0 0) (mkEulerAngle 0 0 0)
     = true.
Proof. repeat split; vm_compute; reflexivity. Qed.

(** ** GestureRecorder::record: stopping and growing *)

(** A turn of [record] without a stop pose goes on. *)
Lemma record_body_no_stop (st : Recording) (c : DataCollector) :
  currentPose c <> doubleTap ->
  exists st', record_body st c = Continue st'.
Proof.
  intros Hp. unfold record_body.
  destruct (Pose_eqb_spec (currentPose c) doubleTap); [contradiction|].
  destruct (debounce _ _ c); eauto.
Qed.

Lemma record_loop_no_stop (hub : Hub) (st : Recording) :
  no_stop hub ->
  record_loop st hub = (Waiting, final (record_loop st hub), []).
Proof.
  intros H. revert st. induction H as [|c hub Hc _ IH]; intros st.
  - reflexivity.
  - cbn [record_loop].
    destruct (record_body_no_stop st c Hc) as [st' ->]. apply IH.
Qed.

(** Samples without a stop pose, then more samples: [record] goes through
    the first and carries on with the others from the state reached. *)
Lemma record_loop_app (pre more : Hub) (st : Recording) :
  no_stop pre ->
  record_loop st (pre ++ more)
  = record_loop (final (record_loop st pre)) more.
Proof.
  intros H. revert st. induction H as [|c pre Hc _ IH]; intros st.
  - reflexivity.
  - cbn [app record_loop].
    destruct (record_body_no_stop st c Hc) as [st' ->]. apply IH.
Qed.

Lemma record_loop_stop (pre post : Hub) (stop : DataCollector)
  (st : Recording) :
  no_stop pre ->
  currentPose stop = doubleTap ->
  record_loop st (pre ++ stop :: post)
  = (Returned tt, final (record_loop st pre), post).
Proof.
  intros Hpre Hstop. rewrite record_loop_app by exact Hpre.
  cbn [record_loop]. unfold record_body. rewrite Hstop. reflexivity.
Qed.

(** X3. [record] returns at the first stop pose and only there: as long as
    no sample shows [doubleTap] it waits for the device, and it returns
    on the first sample that does, with the gesture stored so far; the
    waypoint of that sample is not stored and the samples after it are
    not read. *)
Theorem record_returns_at_first_doubleTap (pre post : Hub)
  (stop : DataCollector) :
  no_stop pre ->
  currentPose stop = doubleTap ->
  status (record pre) = Waiting
  /\ record (pre ++ stop :: post)
     = (Returned tt, final (record pre), post).
Proof.
  intros Hpre Hstop. unfold record. split.
  - rewrite record_loop_no_stop by exact Hpre. reflexivity.
  - apply record_loop_stop; assumption.
Qed.

Lemma record_returns_at_first_doubleTap_witness :
  let pre := [sample rest (mkEulerAngle 5 5 5);
              sample fist (mkEulerAngle 9 5 5)] in
  let stop := sample doubleTap (mkEulerAngle 1 2 3) in
  let post := [sample rest (mkEulerAngle 7 7 7)] in
  status (record pre) = Waiting
  /\ record (pre ++ stop :: post)
     = (Returned tt, final (record pre), post).
Proof.
  intros pre stop post.
  apply (record_returns_at_first_doubleTap pre post stop).
  - repeat constructor; discriminate.
  - reflexivity.
Defined.

(** What a run of the loop adds to the gesture: the gesture it started
    with is kept as it is, and each waypoint added is the one shown by a
    sample of the run; there are no more of them than samples. *)
Lemma record_loop_grows (hub : Hub) (st : Recording) :
  exists added,
    values (lastGesture (final (record_loop st hub)))
    = values (lastGesture st) ++ added
    /\ (List.length added <= List.length hub)%nat
    /\ Forall (fun w => exists c, In c hub /\ shownAngle c = w) added.
Proof.
  revert st. induction hub as [|c hub IH]; intros st.
  - exists []. simpl. rewrite app_nil_r. auto.
  - cbn [record_loop]. unfold record_body.
    destruct (Pose_eqb (currentPose c) doubleTap).
    { exists []. simpl. rewrite app_nil_r. repeat split; [lia|constructor]. }
    destruct (debounce (rec_lastAngle st) (rec_minorChange st) c)
      as [m|w] eqn:E.
    + destruct (IH (mkRecording (rec_lastAngle st) m (lastGesture st)))
        as (added & Hv & Hl & Hin).
      exists added. repeat split.
      * exact Hv.
      * simpl. lia.
      * eapply Forall_impl; [|exact Hin].
        intros w (c' & Hc' & Hw). exists c'. split; [right|]; assumption.
    + destruct (IH (mkRecording w false (push_back (lastGesture st) w)))
        as (added & Hv & Hl & Hin).
      exists (w :: added). repeat split.
      * rewrite Hv. simpl. rewrite <- app_assoc. reflexivity.
      * simpl. lia.
      * constructor.
        -- exists c. split; [left; reflexivity|].
           unfold debounce in E.
           destruct (sameAngle (rec_lastAngle st) c); [discriminate|].
           destruct (nearAngle (rec_lastAngle st) c && rec_minorChange st);
             [discriminate|].
           injection E as <-. reflexivity.
        -- eapply Forall_impl; [|exact Hin].
           intros w' (c' & Hc' & Hw). exists c'.
           split; [right|]; assumption.
Qed.

(** X4. The gesture only grows while [record] runs: what is stored after
    more samples starts with what was stored before them. *)
Theorem record_is_append_only (hub more : Hub) :
  no_stop hub ->
  exists added,
    values (getGesture (record (hub ++ more)))
    = values (getGesture (record hub)) ++ added
    /\ (List.length added <= List.length more)%nat.
Proof.
  intros H. unfold record, getGesture.
  rewrite record_loop_app by exact H.
  destruct (record_loop_grows more (final (record_loop record_init hub)))
    as (added & Hv & Hl & _).
  exists added. split; assumption.
Qed.

Lemma record_is_append_only_witness :
  let hub := [sample rest (mkEulerAngle 5 5 5)] in
  let more := [sample rest (mkEulerAngle 5 5 5);
               sample rest (mkEulerAngle 9 5 5)] in
  exists added,
    values (getGesture (record (hub ++ more)))
    = values (getGesture (record hub)) ++ added
    /\ (List.length added <= List.length more)%nat.
Proof.
  intros hub more. apply (record_is_append_only hub more).
  repeat constructor; discriminate.
Defined.

(** X5. Every waypoint of a recorded gesture was shown by a sample of the
    stream, and the gesture has at most as many waypoints as the stream
    has samples. *)
Theorem recorded_waypoints_come_from_samples (hub : Hub) :
  (List.length (values (getGesture (record hub))) <= List.length hub)%nat
  /\ Forall (fun w => exists c, In c hub /\ shownAngle c = w)
       (values (getGesture (record hub))).
Proof.
  unfold record, getGesture.
  destruct (record_loop_grows hub record_init) as (added & Hv & Hl & Hin).
  unfold final in Hv. rewrite Hv. simpl. split; assumption.
Qed.

(** ** The shape of a recorded gesture *)

Lemma adjacent_distinct_snoc (v : list EulerAngle) (d w : EulerAngle) :
  adjacent_distinct v ->
  (v <> [] -> last v d <> w) ->
  adjacent_distinct (v ++ [w]).
Proof.
  induction v as [|a v IH]; intros Hv Hl; [exact I|].
  destruct v as [|b v].
  - simpl. split; [|exact I]. apply Hl. discriminate.
  - destruct Hv as [Hab Hv]. split; [exact Hab|].
    apply IH; [exact Hv|]. intros _. apply Hl. discriminate.
Qed.

(** In every state of the loop of [record], [lastAngle] is the last
    waypoint stored (the initial (0,0,0) while nothing is stored), no
    stored waypoint repeats its predecessor, and the first one is not
    (0,0,0). *)
Lemma record_reaches_shape (st : Recording) :
  record_reaches st ->
  adjacent_distinct (values (lastGesture st))
  /\ last (values (lastGesture st)) EulerAngle_default = rec_lastAngle st
  /\ hd_error (values (lastGesture st)) <> Some EulerAngle_default.
Proof.
  induction 1 as [|st st' c Hr (Hadj & Hlast & Hhd) Hb].
  - simpl. repeat split. discriminate.
  - pose proof (record_reaches_flag_down st Hr) as Hm.
    unfold record_body in Hb.
    destruct (Pose_eqb (currentPose c) doubleTap); [discriminate|].
    rewrite Hm, debounce_flag_down in Hb.
    destruct (sameAngle (rec_lastAngle st) c) eqn:Es.
    + injection Hb as <-. simpl. auto.
    + injection Hb as <-. simpl.
      assert (Hne : rec_lastAngle st <> shownAngle c).
      { intros E. apply sameAngle_spec in E. congruence. }
      repeat split.
      * apply adjacent_distinct_snoc with (d := EulerAngle_default);
          [exact Hadj|]. intros _. rewrite Hlast. exact Hne.
      * apply last_last.
      * destruct (values (lastGesture st)) as [|a v] eqn:Ev.
        -- cbn [last] in Hlast. cbn [app hd_error]. intros E.
           apply Hne. rewrite <- Hlast. congruence.
        -- exact Hhd.
Qed.

(** X6. A recorded gesture never holds the same waypoint twice in a row and
    never starts with (0,0,0), whatever the device delivers. *)
Theorem recorded_gesture_shape (hub : Hub) :
  adjacent_distinct (values (getGesture (record hub)))
  /\ hd_error (values (getGesture (record hub)))
     <> Some EulerAngle_default.
Proof.
  pose proof (record_loop_reaches hub record_init record_reaches_init)
    as Hr.
  destruct (record_reaches_shape _ Hr) as (Hadj & _ & Hhd).
  split; assumption.
Qed.

(** ** GestureListener::isGesture: how it ends *)

Lemma isGesture_reaches_correct_le (g : Gesture) (c0 : DataCollector)
  (st : Listening) :
  isGesture_reaches g c0 st -> correct st <= Z.max 0 (getNumSteps g).
Proof.
  induction 1 as [|st st' c Hr IH Hlt _ Hb]; [simpl; lia|].
  destruct (isGesture_reaches_counters g c0 st Hr) as [H0 _].
  unfold isGesture_body in Hb.
  destruct (debounce (lastAngle st) (minorChange st) c) as [m|a].
  - injection Hb as <-. exact IH.
  - unfold compare_step in Hb.
    destruct (Gesture_equals g a (correct st)) as [[|]|]; [| |discriminate].
    + injection Hb as <-. simpl.
      rewrite (int_add_1_below (correct st) (getNumSteps g));
        [lia|lia|apply getNumSteps_range].
    + destruct (MAX_STRIKES <=? strikes st); injection Hb as <-; simpl; lia.
Qed.

Lemma isGesture_loop_never_throws (g : Gesture) (c0 : DataCollector)
  (hub : Hub) (st : Listening) :
  isGesture_reaches g c0 st ->
  status (isGesture_loop g (getNumSteps g) st hub) <> Thrown.
Proof.
  unfold status.
  revert st. induction hub as [|c hub IH]; intros st Hr; simpl.
  - destruct (correct st <? getNumSteps g);
      [destruct (Pose_eqb (currentPose (collector st)) waveOut)|];
      simpl; discriminate.
  - destruct (Z.ltb_spec (correct st) (getNumSteps g));
      [|simpl; discriminate].
    destruct (Pose_eqb_spec (currentPose (collector st)) waveOut);
      [simpl; discriminate|].
    destruct (isGesture_body g st c) as [st'|] eqn:E.
    + apply IH. econstructor; eauto.
    + exfalso. unfold isGesture_body in E.
      destruct (debounce (lastAngle st) (minorChange st) c) as [m|a];
        [discriminate|].
      destruct (compare_step_defined g c0 st a Hr ltac:(assumption))
        as (k & s & Ek).
      rewrite Ek in E. discriminate.
Qed.

(** X7. [values->at] never throws inside [isGesture]: whatever the gesture,
    the collector and the stream, the call returns or waits for the
    device. *)
Theorem isGesture_never_throws (g : Gesture) (c0 : DataCollector)
  (hub : Hub) :
  status (isGesture g c0 hub) <> Thrown.
Proof.
  apply (isGesture_loop_never_throws g c0). constructor.
Qed.

Lemma isGesture_loop_ends (g : Gesture) (n : Z) (hub : Hub)
  (st : Listening) :
  let r := isGesture_loop g n st hub in
  (status r = Waiting ->
   correct (final r) < n
   /\ currentPose (collector (final r)) <> waveOut
   /\ unread r = [])
  /\ (forall b, status r = Returned b ->
      n <= correct (final r)
      \/ currentPose (collector (final r)) = waveOut).
Proof.
  unfold status, final, unread.
  revert st. induction hub as [|c hub IH]; intros st; simpl.
  - destruct (Z.ltb_spec (correct st) n).
    + destruct (Pose_eqb_spec (currentPose (collector st)) waveOut);
        simpl; split; try discriminate; auto.
    + simpl. split; [discriminate|auto].
  - destruct (Z.ltb_spec (correct st) n).
    + destruct (Pose_eqb_spec (currentPose (collector st)) waveOut).
      * simpl. split; [discriminate|auto].
      * destruct (isGesture_body g st c) as [st'|]; [apply IH|].
        simpl. split; discriminate.
    + simpl. split; [discriminate|auto].
Qed.

(** X8. [isGesture] returns only when the gesture is complete or the
    collector shows the abort pose; while it waits for the device, the
    gesture is incomplete, no abort pose is shown and every sample given
    was read.  At every end [correct] lies between 0 and the number of
    steps and [strikes] between 0 and [MAX_STRIKES]. *)
Theorem isGesture_ends_complete_or_aborted (g : Gesture)
  (c0 : DataCollector) (hub : Hub) :
  let r := isGesture g c0 hub in
  (status r = Waiting ->
   correct (final r) < getNumSteps g
   /\ currentPose (collector (final r)) <> waveOut
   /\ unread r = [])
  /\ (forall b, status r = Returned b ->
      correct (final r) = Z.max 0 (getNumSteps g)
      \/ currentPose (collector (final r)) = waveOut)
  /\ 0 <= correct (final r) <= Z.max 0 (getNumSteps g)
  /\ 0 <= strikes (final r) <= MAX_STRIKES.
Proof.
  intros r.
  pose proof (isGesture_loop_reaches g c0 hub (isGesture_init c0)
                (isGesture_reaches_init g c0)) as Hr.
  fold (isGesture g c0 hub) in Hr. fold r in Hr.
  pose proof (isGesture_reaches_correct_le g c0 _ Hr) as Hle.
  destruct (isGesture_reaches_counters g c0 _ Hr) as [H0 Hs].
  destruct (isGesture_loop_ends g (getNumSteps g) hub (isGesture_init c0))
    as [Hw Hret].
  fold (isGesture g c0 hub) in Hw, Hret. fold r in Hw, Hret.
  split; [exact Hw|]. split; [|split; [lia|exact Hs]].
  intros b Hb. destruct (Hret b Hb) as [Hn|Hp]; [left; lia|right; exact Hp].
Qed.

(** Each sample read confirms at most one step. *)
Lemma isGesture_loop_progress (g : Gesture) (c0 : DataCollector)
  (hub : Hub) (st : Listening) :
  isGesture_reaches g c0 st ->
  let r := isGesture_loop g (getNumSteps g) st hub in
  (List.length (unread r) <= List.length hub)%nat
  /\ correct (final r)
     <= correct st
        + (Z.of_nat (List.length hub) - Z.of_nat (List.length (unread r))).
Proof.
  unfold final, unread. cbv zeta.
  revert st. induction hub as [|c hub IH]; intros st Hr;
    cbn [isGesture_loop].
  - destruct (correct st <? getNumSteps g);
      [destruct (Pose_eqb (currentPose (collector st)) waveOut)|];
      cbn [fst snd List.length correct]; lia.
  - destruct (Z.ltb_spec (correct st) (getNumSteps g)); [|cbn [fst snd List.length correct]; lia].
    destruct (Pose_eqb_spec (currentPose (collector st)) waveOut);
      [cbn [fst snd List.length correct]; lia|].
    destruct (isGesture_body g st c) as [st'|] eqn:E; [|cbn [fst snd List.length correct]; lia].
    assert (Hr' : isGesture_reaches g c0 st') by (econstructor; eauto).
    destruct (IH st' Hr') as [Hl Hc].
    assert (Hstep : correct st' <= correct st + 1).
    { clear IH Hl Hc Hr'.
      destruct (isGesture_reaches_counters g c0 st Hr) as [H0 _].
      unfold isGesture_body in E.
      destruct (debounce (lastAngle st) (minorChange st) c) as [m|a].
      - injection E as <-. simpl. lia.
      - unfold compare_step in E.
        destruct (Gesture_equals g a (correct st)) as [[|]|];
          [| |discriminate].
        + injection E as <-. simpl.
          rewrite (int_add_1_below (correct st) (getNumSteps g));
            [lia|lia|apply getNumSteps_range].
        + destruct (MAX_STRIKES <=? strikes st); injection E as <-;
            cbn [fst snd List.length correct]; lia. }
    cbn [List.length]. split; [lia|]. lia.
Qed.

(** X9. [isGesture] confirms at most one step per sample it reads: the
    progress it ends with is at most the number of samples consumed.  A
    gesture of [n] steps is therefore never completed by fewer than [n]
    samples. *)
Theorem isGesture_progress_bounded_by_samples (g : Gesture)
  (c0 : DataCollector) (hub : Hub) :
  let r := isGesture g c0 hub in
  (List.length (unread r) <= List.length hub)%nat
  /\ correct (final r)
     <= Z.of_nat (List.length hub) - Z.of_nat (List.length (unread r)).
Proof.
  intros r.
  destruct (isGesture_loop_progress g c0 hub (isGesture_init c0)
              (isGesture_reaches_init g c0)) as [Hl Hc].
  split; [exact Hl|]. simpl in Hc. exact Hc.
Qed.

(** ** Recording a stream and replaying it *)

Lemma nth_error_middle (v added : list EulerAngle) (w : EulerAngle) :
  nth_error ((v ++ [w]) ++ added) (List.length v) = Some w.
Proof.
  rewrite <- app_assoc. rewrite nth_error_app2 by lia.
  rewrite Nat.sub_diag. reflexivity.
Qed.

(** The recorder and the listener walk through the same stream in step:
    what the one stores next is what the other compares with next. *)
Lemma replay_in_step (g : Gesture) :
  Z.of_nat (List.length (values g)) <= INT_MAX ->
  forall (hub : Hub) (rs : Recording) (ls : Listening),
    no_stop hub -> no_abort hub ->
    rec_minorChange rs = false ->
    minorChange ls = false ->
    lastAngle ls = rec_lastAngle rs ->
    correct ls = Z.of_nat (List.length (values (lastGesture rs))) ->
    currentPose (collector ls) <> waveOut ->
    values (lastGesture (final (record_loop rs hub))) = values g ->
    status (isGesture_loop g (getNumSteps g) ls hub) = Returned true
    /\ correct (final (isGesture_loop g (getNumSteps g) ls hub))
       = getNumSteps g.
Proof.
  intros Hg.
  assert (Hn : getNumSteps g = Z.of_nat (List.length (values g))).
  { apply to_int_id. unfold is_int, INT_MIN. lia. }
  induction hub as [|c hub IH];
    intros rs ls Hstop Habort Hmr Hml Hla Hc Hp Hv.
  - unfold final in Hv. simpl in Hv. cbn [isGesture_loop].
    rewrite Hn, Hc, Hv, Z.ltb_irrefl. unfold status, final. simpl.
    split; [reflexivity|congruence].
  - inversion Hstop as [|? ? Hsc Hstop']; subst.
    inversion Habort as [|? ? Hac Habort']; subst.
    destruct (record_loop_grows (c :: hub) rs) as (added & Hadd & _ & _).
    rewrite Hv in Hadd.
    cbn [isGesture_loop].
    destruct (Z.ltb_spec (correct ls) (getNumSteps g)) as [Hlt|Hge].
    2:{ unfold status, final. simpl. split; [reflexivity|].
        pose proof (f_equal (@List.length _) Hadd) as Hlen.
        rewrite length_app in Hlen. lia. }
    destruct (Pose_eqb_spec (currentPose (collector ls)) waveOut);
      [contradiction|].
    cbn [record_loop] in Hv. unfold record_body in Hv.
    destruct (Pose_eqb_spec (currentPose c) doubleTap); [contradiction|].
    unfold isGesture_body.
    rewrite Hmr, debounce_flag_down in Hv.
    rewrite Hml, Hla, debounce_flag_down.
    destruct (sameAngle (rec_lastAngle rs) c) eqn:Es; cbv iota beta in Hv.
    + apply (IH (mkRecording (rec_lastAngle rs) false (lastGesture rs)));
        auto.
    + set (w := shownAngle c) in *.
      destruct (record_loop_grows hub
                  (mkRecording w false (push_back (lastGesture rs) w)))
        as (added' & Hadd' & _ & _).
      rewrite Hv in Hadd'. cbn [lastGesture push_back values] in Hadd'.
      assert (Hat : vector_at (values g) (correct ls) = Some w).
      { unfold vector_at. destruct (Z.ltb_spec (correct ls) 0); [lia|].
        rewrite Hc, Nat2Z.id, Hadd'. apply nth_error_middle. }
      unfold compare_step, Gesture_equals. rewrite Hat.
      rewrite EulerAngle_equals_refl.
      apply (IH (mkRecording w false (push_back (lastGesture rs) w)));
        auto.
      cbn [correct lastGesture push_back values].
      rewrite (int_add_1_below (correct ls) (getNumSteps g));
        [|lia|apply getNumSteps_range].
      rewrite length_app, Hc. simpl. lia.
Qed.

(** X10. Replaying a recording completes it.  Let [g] be the gesture recorded
    from a stream that ends with the stop pose.  Played once more, with
    no abort pose shown, the same stream makes [isGesture g] return with
    every step of [g] confirmed. *)
Theorem replay_of_recording_completes (hub : Hub)
  (stop c0 : DataCollector) :
  no_stop hub -> no_abort hub ->
  currentPose stop = doubleTap ->
  currentPose c0 <> waveOut ->
  Z.of_nat (List.length hub) <= INT_MAX ->
  let g := getGesture (record (hub ++ [stop])) in
  status (isGesture g c0 hub) = Returned true
  /\ correct (final (isGesture g c0 hub)) = getNumSteps g
  /\ getNumSteps g = Z.of_nat (List.length (values g)).
Proof.
  intros Hstop Habort Hs Hc0 Hlen g.
  assert (Eg : g = getGesture (record hub)).
  { unfold g, record.
    rewrite (record_loop_stop hub [] stop record_init Hstop Hs).
    reflexivity. }
  destruct (record_loop_grows hub record_init) as (added & Hv & Hl & _).
  assert (Ev : values g = added) by (rewrite Eg; exact Hv).
  rewrite <- Ev in Hl.
  assert (Hg : Z.of_nat (List.length (values g)) <= INT_MAX) by lia.
  assert (Hn : getNumSteps g = Z.of_nat (List.length (values g))).
  { apply to_int_id. unfold is_int, INT_MIN. lia. }
  destruct (replay_in_step g Hg hub record_init (isGesture_init c0))
    as [Hst Hco]; auto.
  { rewrite Eg. reflexivity. }
Qed.

Lemma replay_of_recording_completes_witness :
  let hub := [sample rest (mkEulerAngle 5 5 5);
              sample rest (mkEulerAngle 5 5 5);
              sample fist (mkEulerAngle 10 5 5);
              sample rest (mkEulerAngle 10 5 5)] in
  let stop := sample doubleTap (mkEulerAngle 10 5 5) in
  let c0 := mkCollector rest 0 0 0 in
  let g := getGesture (record (hub ++ [stop])) in
  status (isGesture g c0 hub) = Returned true
  /\ correct (final (isGesture g c0 hub)) = getNumSteps g
  /\ getNumSteps g = Z.of_nat (List.length (values g)).
Proof.
  intros hub stop c0.
  apply (replay_of_recording_completes hub stop c0).
  - repeat constructor; discriminate.
  - repeat constructor; discriminate.
  - reflexivity.
  - discriminate.
  - unfold INT_MAX. simpl. lia.
Defined.

(** ** More on the library *)

(** Putting a key twice is putting it once, with the later value. *)
Lemma map_put_put (k : string) (v1 v2 : GesturePtr) (m : StringMap) :
  map_put k v2 (map_put k v1 m) = map_put k v2 m.
Proof.
  induction m as [|[k0 v0] m IH]; simpl.
  - rewrite string_compare_refl. reflexivity.
  - destruct (String.compare k k0) eqn:E; simpl.
    + rewrite string_compare_refl. reflexivity.
    + rewrite string_compare_refl. reflexivity.
    + rewrite E, IH. reflexivity.
Qed.

(** The two steps of line 545 amount to one [map_put]. *)
Lemma save_is_put (name : string) (g : Gesture) (lib : Gestures) :
  gest (save name g lib) = map_put name (Some g) (gest lib).
Proof.
  unfold save, map_subscript. simpl.
  destruct (map_find name (gest lib)); simpl; [reflexivity|].
  apply map_put_put.
Qed.

(** A key other than the one put is found as before. *)
Lemma map_find_put_other (k k' : string) (v : GesturePtr) (m : StringMap) :
  Sorted string_lt (keys m) ->
  k' <> k ->
  map_find k' (map_put k v m) = map_find k' m.
Proof.
  intros Hs Hne. apply Sorted_StronglySorted in Hs;
    [|intros a b c; apply string_lt_trans].
  induction m as [|[k0 v0] m IH]; simpl.
  - destruct (String.compare k' k) eqn:E; try reflexivity.
    apply String.compare_eq_iff in E. contradiction.
  - inversion Hs as [|? ? Hs' Hall]; subst.
    destruct (String.compare k k0) eqn:E; simpl.
    + apply String.compare_eq_iff in E. subst k0.
      destruct (String.compare k' k) eqn:E'; try reflexivity.
      apply String.compare_eq_iff in E'. contradiction.
    + destruct (String.compare k' k) eqn:E'.
      * apply String.compare_eq_iff in E'. contradiction.
      * pose proof (string_lt_trans k' k k0 E' E) as Hlt.
        unfold string_lt in Hlt. rewrite Hlt. reflexivity.
      * reflexivity.
    + destruct (String.compare k' k0); try reflexivity.
      apply IH. exact Hs'.
Qed.

(** X11. Saving and looking up: the gesture saved under a name is the one the
    lookup of that name yields, and that lookup leaves the library as it
    is. *)
Theorem lookup_after_save (name : string) (g : Gesture) (lib : Gestures) :
  lookup (save name g lib) name = (Some g, save name g lib).
Proof.
  unfold lookup, map_subscript.
  rewrite save_is_put, map_find_put. simpl.
  rewrite <- (save_is_put name g lib).
  destruct (save name g lib). reflexivity.
Qed.

(** X12. Saving under one name leaves what is bound to every other name. *)
Theorem save_keeps_other_names (name other : string) (g : Gesture)
  (lib : Gestures) :
  Sorted string_lt (keys (gest lib)) ->
  other <> name ->
  map_find other (gest (save name g lib)) = map_find other (gest lib).
Proof.
  intros Hs Hne. rewrite save_is_put.
  apply map_find_put_other; assumption.
Qed.

Lemma save_keeps_other_names_witness :
  let lib := save "bend" (mkGesture [mkEulerAngle 5 5 5]) Gestures_empty in
  map_find "bend" (gest (save "wave" (mkGesture []) lib))
  = map_find "bend" (gest lib).
Proof.
  intros lib.
  apply (save_keeps_other_names "wave" "bend" (mkGesture []) lib).
  - repeat constructor.
  - discriminate.
Defined.

(** X13. Saving twice under one name keeps the later gesture only. *)
Theorem save_overwrites (name : string) (g1 g2 : Gesture) (lib : Gestures) :
  save name g2 (save name g1 lib) = save name g2 lib.
Proof.
  assert (E : gest (save name g2 (save name g1 lib))
              = gest (save name g2 lib)).
  { rewrite !save_is_put. apply map_put_put. }
  destruct (save name g2 (save name g1 lib)), (save name g2 lib).
  simpl in E. congruence.
Qed.

Lemma fold_int_add_count (m : StringMap) (i : Z) :
  0 <= i -> i + Z.of_nat (List.length m) <= INT_MAX ->
  fold_left (fun i _ => int_add i 1) m i = i + Z.of_nat (List.length m).
Proof.
  revert i. induction m as [|b m IH]; intros i H0 Hb.
  - simpl. lia.
  - cbn [fold_left List.length] in *.
    assert (E : int_add i 1 = i + 1).
    { unfold int_add. apply to_int_id.
      unfold is_int, INT_MIN, INT_MAX in *. lia. }
    rewrite E, IH; lia.
Qed.

Lemma getSize_counts_bindings_aux (lib : Gestures) :
  Z.of_nat (List.length (gest lib)) <= INT_MAX ->
  getSize lib = Z.of_nat (List.length (gest lib)).
Proof.
  intros H. unfold getSize. rewrite fold_int_add_count; lia.
Qed.

(** X15. [getSize] counts the bindings (as long as the count fits an
    [int]). *)
Theorem getSize_counts_bindings (lib : Gestures) :
  Z.of_nat (List.length (gest lib)) <= INT_MAX ->
  getSize lib = Z.of_nat (List.length (gest lib)).
Proof. apply getSize_counts_bindings_aux. Qed.

Lemma getSize_counts_bindings_witness :
  let lib := save "wave" (mkGesture [])
               (save "bend" (mkGesture []) Gestures_empty) in
  getSize lib = Z.of_nat (List.length (gest lib)).
Proof.
  intros lib. apply (getSize_counts_bindings lib).
  unfold INT_MAX. simpl. lia.
Defined.

(** X17. [keyAt(n)] in full: the key at [begin()] for [n = 0] (no value when
    the library is empty), and no value for every other [n]. *)
Theorem keyAt_only_answers_0 (lib : Gestures) (n : Z) :
  keyAt lib n = if n =? 0 then hd_error (keys (gest lib)) else None.
Proof.
  destruct (Z.eqb_spec n 0) as [->|Hn].
  - apply keyAt_0.
  - apply keyAt_other. exact Hn.
Qed.

Lemma int_sub_1_is_0 (input : Z) :
  is_int input -> (int_sub input 1 =? 0) = (input =? 1).
Proof.
  intros H. unfold int_sub.
  destruct (to_int_decompose (input - 1)) as [k Hk].
  pose proof (to_int_range (input - 1)) as Hr.
  unfold is_int, INT_MIN, INT_MAX in *.
  destruct (Z.eqb_spec input 1) as [->|Hne].
  - reflexivity.
  - apply Z.eqb_neq. intros E. rewrite E in Hk. lia.
Qed.

(** X18. The selection of line 575 in full: input 1 on a library that is
    not empty selects what is bound to the least name and leaves the
    library as it is, without a new binding.  For every other input, and
    for every input on an empty library, [keyAt] reaches its end without
    a [return]: the selection has no defined value ([None]). *)
Theorem selected_is_first_or_nothing (lib : Gestures) (input : Z) :
  is_int input ->
  selected lib input
  = match gest lib with
    | (_, v) :: _ => if input =? 1 then Some (v, lib) else None
    | [] => None
    end.
Proof.
  intros Hi. unfold selected.
  pose proof (int_sub_1_is_0 input Hi) as E.
  destruct (Z.eqb_spec (int_sub input 1) 0) as [E0|E0].
  - rewrite E0, keyAt_0, <- E.
    destruct lib as [m]. simpl.
    destruct m as [|[k v] m]; simpl; [reflexivity|].
    unfold lookup, map_subscript. simpl.
    rewrite string_compare_refl. reflexivity.
  - rewrite keyAt_other by exact E0. rewrite <- E.
    destruct (gest lib) as [|[k v] m]; reflexivity.
Qed.

Lemma selected_is_first_or_nothing_witness :
  let g := mkGesture [mkEulerAngle 5 5 5] in
  let lib := save "wave" (mkGesture []) (save "bend" g Gestures_empty) in
  selected lib 1 = Some (Some g, lib) /\ selected lib 2 = None.
Proof.
  intros g lib. split.
  - apply (selected_is_first_or_nothing lib 1).
    unfold is_int, INT_MIN, INT_MAX. lia.
  - apply (selected_is_first_or_nothing lib 2).
    unfold is_int, INT_MIN, INT_MAX. lia.
Defined.

Lemma save_all_app (pre post : list (string * Gesture)) (lib : Gestures) :
  save_all (pre ++ post) lib = save_all post (save_all pre lib).
Proof. unfold save_all. apply fold_left_app. Qed.

Lemma save_all_keeps_other_names (post : list (string * Gesture))
  (name : string) (lib : Gestures) :
  Sorted string_lt (keys (gest lib)) ->
  ~ In name (map fst post) ->
  map_find name (gest (save_all post lib)) = map_find name (gest lib).
Proof.
  revert lib. induction post as [|[n g] post IH]; intros lib Hs Hn.
  - reflexivity.
  - cbn [save_all fold_left fst snd]. fold (save_all post (save n g lib)).
    rewrite IH.
    + rewrite save_is_put. apply map_find_put_other; [exact Hs|].
      intros E. apply Hn. left. simpl. congruence.
    + apply save_sorted. exact Hs.
    + intros Hin. apply Hn. right. exact Hin.
Qed.

(** X14. After any saves, the lookup of a name yields the gesture of the last
    save under that name, and leaves the library as it is. *)
Theorem last_save_wins (pre post : list (string * Gesture))
  (name : string) (g : Gesture) :
  ~ In name (map fst post) ->
  let lib := save_all (pre ++ (name, g) :: post) Gestures_empty in
  lookup lib name = (Some g, lib).
Proof.
  intros Hn lib.
  assert (E : map_find name (gest lib) = Some (Some g)).
  { unfold lib. rewrite save_all_app.
    change (save_all ((name, g) :: post) (save_all pre Gestures_empty))
      with (save_all post (save name g (save_all pre Gestures_empty))).
    rewrite save_all_keeps_other_names; [|apply save_sorted|exact Hn].
    - rewrite save_is_put. apply map_find_put.
    - apply save_all_sorted. constructor. }
  unfold lookup, map_subscript. rewrite E. simpl.
  destruct lib. reflexivity.
Qed.

Lemma last_save_wins_witness :
  let first := mkGesture [mkEulerAngle 5 5 5] in
  let second := mkGesture [mkEulerAngle 9 9 9] in
  let lib := save_all [("bend"%string, first); ("bend"%string, second);
                       ("wave"%string, first)] Gestures_empty in
  lookup lib "bend" = (Some second, lib).
Proof.
  intros first second.
  apply (last_save_wins [("bend"%string, first)] [("wave"%string, first)]
           "bend" second).
  simpl. intros [H|[]]. discriminate H.
Defined.

Lemma sorted_keys_NoDup (m : StringMap) :
  Sorted string_lt (keys m) -> NoDup (keys m).
Proof.
  intros Hs. apply Sorted_StronglySorted in Hs;
    [|intros a b c; apply string_lt_trans].
  induction Hs as [|k ks Hs IH Hall]; constructor; [|exact IH].
  intros Hin. rewrite Forall_forall in Hall. specialize (Hall k Hin).
  unfold string_lt in Hall. rewrite string_compare_refl in Hall.
  discriminate.
Qed.

(** X16. The library holds one binding per distinct name saved, and [getSize]
    is their number. *)
Theorem getSize_counts_distinct_names (saved : list (string * Gesture)) :
  Z.of_nat (List.length saved) <= INT_MAX ->
  getSize (save_all saved Gestures_empty)
  = Z.of_nat (List.length (nodup string_dec (map fst saved))).
Proof.
  intros Hb.
  set (lib := save_all saved Gestures_empty).
  assert (Hs : Sorted string_lt (keys (gest lib))).
  { apply save_all_sorted. constructor. }
  assert (Hk : forall k, In k (keys (gest lib)) <-> In k (map fst saved)).
  { intros k. unfold lib. rewrite save_all_keys. simpl. intuition. }
  pose proof (sorted_keys_NoDup _ Hs) as Hnd.
  assert (Hlen : List.length (keys (gest lib))
                 = List.length (nodup string_dec (map fst saved))).
  { apply Nat.le_antisymm; apply NoDup_incl_length.
    - exact Hnd.
    - intros k Hin. apply nodup_In. apply Hk. exact Hin.
    - apply NoDup_nodup.
    - intros k Hin. apply Hk. apply nodup_In in Hin. exact Hin. }
  assert (Hle : (List.length (keys (gest lib)) <= List.length saved)%nat).
  { rewrite <- (length_map fst saved).
    apply NoDup_incl_length; [exact Hnd|].
    intros k Hin. apply Hk. exact Hin. }
  unfold keys in Hlen, Hle. rewrite length_map in Hlen, Hle.
  rewrite getSize_counts_bindings_aux by lia.
  rewrite Hlen. reflexivity.
Qed.

Lemma getSize_counts_distinct_names_witness :
  getSize (save_all [("wave"%string, mkGesture []);
                     ("bend"%string, mkGesture []);
                     ("wave"%string, mkGesture [mkEulerAngle 5 5 5])]
             Gestures_empty)
  = Z.of_nat (List.length (nodup string_dec ["wave"; "bend"; "wave"]%string)).
Proof.
  apply (getSize_counts_distinct_names
           [("wave"%string, mkGesture []);
            ("bend"%string, mkGesture []);
            ("wave"%string, mkGesture [mkEulerAngle 5 5 5])]).
  unfold INT_MAX. simpl. lia.
Defined.

(** ** The repetitions of main *)

(** With the abort pose shown as it starts, a session is over at once. *)
Lemma isGesture_aborted_at_once (g : Gesture) (c : DataCollector)
  (hub : Hub) :
  currentPose c = waveOut ->
  isGesture g c hub = (Returned true, isGesture_init c, hub).
Proof.
  intros Hp. unfold isGesture.
  destruct hub as [|c' hub]; simpl; rewrite Hp; simpl;
    destruct (0 <? getNumSteps g); reflexivity.
Qed.

(** The loop of lines 572-577 from any value of [reps]: with a gesture
    selected, it ends only by its condition or by a session that waits
    for the device; it leaves the library as it is; and when it ends by
    its condition it has printed one line, and run one session, for each
    value from [reps] to [totalReps]. *)
Lemma reps_loop_runs (g : Gesture) (lib : Gestures) (input totalReps : Z) :
  selected lib input = Some (Some g, lib) ->
  totalReps < INT_MAX ->
  forall (turns : nat) (reps : Z) (c : DataCollector) (hub : Hub)
         (lines : list (Z * Z)),
    0 <= reps ->
    (Z.to_nat (totalReps + 1 - reps) <= turns)%nat ->
    let p := reps_loop turns lib input totalReps reps c hub lines in
    (perf_end p = Finished \/ perf_end p = AwaitsDevice)
    /\ perf_lib p = lib
    /\ (perf_end p = Finished ->
        perf_lines p
        = lines ++ reps_lines (Z.to_nat (totalReps + 1 - reps)) reps
                     totalReps).
Proof.
  intros Hsel Hmax. induction turns as [|turns IH];
    intros reps c hub lines H0 Ht; cbv zeta; cbn [reps_loop].
  - destruct (Z.leb_spec reps totalReps); [lia|]. simpl.
    replace (Z.to_nat (totalReps + 1 - reps)) with 0%nat by lia.
    simpl. rewrite app_nil_r. auto.
  - destruct (Z.leb_spec reps totalReps) as [Hle|Hgt].
    + rewrite Hsel.
      pose proof (isGesture_loop_never_throws g c hub (isGesture_init c)
                    (isGesture_reaches_init g c)) as Hnt.
      fold (isGesture g c hub) in Hnt.
      destruct (status (isGesture g c hub)) as [b| |] eqn:Es;
        [|simpl; repeat split; auto; discriminate|contradiction].
      assert (E : int_add reps 1 = reps + 1).
      { unfold int_add. apply to_int_id.
        unfold is_int, INT_MIN, INT_MAX in *. lia. }
      rewrite E.
      destruct (IH (reps + 1) (collector (final (isGesture g c hub)))
                  (unread (isGesture g c hub))
                  (lines ++ [(reps, totalReps)]) ltac:(lia) ltac:(lia))
        as (Hend & Hlib & Hlines).
      split; [exact Hend|]. split; [exact Hlib|].
      intros Hf. rewrite (Hlines Hf), <- app_assoc.
      replace (Z.to_nat (totalReps + 1 - reps))
        with (S (Z.to_nat (totalReps + 1 - (reps + 1)))) by lia.
      reflexivity.
    + simpl.
      replace (Z.to_nat (totalReps + 1 - reps)) with 0%nat by lia.
      simpl. rewrite app_nil_r. auto.
Qed.

(** X19. Asked for [totalReps] repetitions, the loop of main runs
    [totalReps + 1] sessions: when it ends by its condition, it has
    printed the lines "Reps: 0 / totalReps" to
    "Reps: totalReps / totalReps".  With a gesture selected it never ends
    otherwise than by its condition or by a session that waits for the
    device, and it leaves the library as it is. *)
Theorem main_runs_one_session_more (g : Gesture) (lib : Gestures)
  (input totalReps : Z) (turns : nat) (c : DataCollector) (hub : Hub) :
  selected lib input = Some (Some g, lib) ->
  totalReps < INT_MAX ->
  (Z.to_nat (totalReps + 1) <= turns)%nat ->
  let p := perform turns lib input totalReps c hub in
  (perf_end p = Finished \/ perf_end p = AwaitsDevice)
  /\ perf_lib p = lib
  /\ (perf_end p = Finished ->
      perf_lines p = reps_lines (Z.to_nat (totalReps + 1)) 0 totalReps).
Proof.
  intros Hsel Hmax Ht. unfold perform.
  destruct (reps_loop_runs g lib input totalReps Hsel Hmax turns 0 c hub []
              ltac:(lia)) as (Hend & Hlib & Hlines).
  { rewrite Z.sub_0_r. exact Ht. }
  rewrite Z.sub_0_r in Hlines. auto.
Qed.

Lemma main_runs_one_session_more_witness :
  let g := mkGesture [mkEulerAngle 5 5 5] in
  let lib := save "bend" g Gestures_empty in
  let hub := [sample rest (mkEulerAngle 5 5 5);
              sample rest (mkEulerAngle 9 9 9);
              sample rest (mkEulerAngle 5 5 5)] in
  let p := perform 2 lib 1 1 (mkCollector rest 0 0 0) hub in
  (perf_end p = Finished \/ perf_end p = AwaitsDevice)
  /\ perf_lib p = lib
  /\ (perf_end p = Finished -> perf_lines p = [(0, 1); (1, 1)]).
Proof.
  intros g lib hub.
  apply (main_runs_one_session_more g lib 1 1 2 (mkCollector rest 0 0 0)
           hub).
  - reflexivity.
  - unfold INT_MAX. lia.
  - simpl. lia.
Defined.

(** X20. One abort pose ends every repetition that is left.  The collector
    keeps showing [waveOut] between the sessions, so each of the
    [totalReps + 1] sessions returns at once: every line is printed, no
    sample is read, and collector and library are left as they were. *)
Theorem abort_ends_every_repetition (g : Gesture) (lib : Gestures)
  (input totalReps : Z) (turns : nat) (c : DataCollector) (hub : Hub) :
  selected lib input = Some (Some g, lib) ->
  currentPose c = waveOut ->
  totalReps < INT_MAX ->
  (Z.to_nat (totalReps + 1) <= turns)%nat ->
  perform turns lib input totalReps c hub
  = mkPerformance Finished
      (reps_lines (Z.to_nat (totalReps + 1)) 0 totalReps) c lib hub.
Proof.
  intros Hsel Hp Hmax Ht. unfold perform.
  assert (Hgen : forall (turns : nat) (reps : Z) (lines : list (Z * Z)),
             0 <= reps ->
             (Z.to_nat (totalReps + 1 - reps) <= turns)%nat ->
             reps_loop turns lib input totalReps reps c hub lines
             = mkPerformance Finished
                 (lines ++ reps_lines (Z.to_nat (totalReps + 1 - reps))
                             reps totalReps) c lib hub).
  { clear turns Ht. induction turns as [|turns IH];
      intros reps lines H0 Ht; cbn [reps_loop].
    - destruct (Z.leb_spec reps totalReps); [lia|].
      replace (Z.to_nat (totalReps + 1 - reps)) with 0%nat by lia.
      simpl. rewrite app_nil_r. reflexivity.
    - destruct (Z.leb_spec reps totalReps) as [Hle|Hgt].
      + rewrite Hsel, (isGesture_aborted_at_once g c hub Hp).
        cbv zeta. unfold status, final, unread. cbn [fst snd collector
          isGesture_init].
        assert (E : int_add reps 1 = reps + 1).
        { unfold int_add. apply to_int_id.
          unfold is_int, INT_MIN, INT_MAX in *. lia. }
        rewrite E, IH by lia. rewrite <- app_assoc.
        replace (Z.to_nat (totalReps + 1 - reps))
          with (S (Z.to_nat (totalReps + 1 - (reps + 1)))) by lia.
        reflexivity.
      + replace (Z.to_nat (totalReps + 1 - reps)) with 0%nat by lia.
        simpl. rewrite app_nil_r. reflexivity. }
  rewrite Hgen by (rewrite ?Z.sub_0_r; lia).
  rewrite Z.sub_0_r. reflexivity.
Qed.

Lemma abort_ends_every_repetition_witness :
  let g := mkGesture [mkEulerAngle 5 5 5] in
  let lib := save "bend" g Gestures_empty in
  let c := mkCollector waveOut 3 3 3 in
  let hub := [sample rest (mkEulerAngle 5 5 5)] in
  perform 3 lib 1 2 c hub
  = mkPerformance Finished [(0, 2); (1, 2); (2, 2)] c lib hub.
Proof.
  intros g lib c hub.
  apply (abort_ends_every_repetition g lib 1 2 3 c hub).
  - reflexivity.
  - reflexivity.
  - unfold INT_MAX. lia.
  - simpl. lia.
Defined.

(** ** More on the quantiser *)

Section QuantizerBuckets.
Local Open Scope R_scope.

Lemma Int_part_monotone (r s : R) : r <= s -> (Int_part r <= Int_part s)%Z.
Proof.
  intros H. destruct (base_Int_part r) as [Hr _].
  destruct (base_Int_part s) as [_ Hs].
  assert (Hlt : (Int_part r < Int_part s + 1)%Z).
  { apply lt_IZR. rewrite plus_IZR. lra. }
  lia.
Qed.

Lemma Int_part_nonneg (r : R) : 0 <= r -> (0 <= Int_part r)%Z.
Proof.
  intros H. destruct (base_Int_part r) as [_ Hr].
  assert (Hlt : (-1 < Int_part r)%Z) by (apply lt_IZR; lra). lia.
Qed.

(** Dropping the fraction keeps the order. *)
Lemma static_cast_int_monotone (r s : R) :
  r <= s -> (static_cast_int r <= static_cast_int s)%Z.
Proof.
  intros H. unfold static_cast_int.
  destruct (Rle_dec 0 r) as [Hr|Hr], (Rle_dec 0 s) as [Hs|Hs].
  - apply Int_part_monotone. exact H.
  - lra.
  - pose proof (Int_part_nonneg (- r) ltac:(lra)).
    pose proof (Int_part_nonneg s Hs). lia.
  - pose proof (Int_part_monotone (- s) (- r) ltac:(lra)). lia.
Qed.

(** X21. The three scalings keep the order of the angles: a larger angle never
    gets a smaller value. *)
Theorem scaling_is_monotone (a b : R) :
  a <= b ->
  (scale_roll a <= scale_roll b)%Z
  /\ (scale_pitch a <= scale_pitch b)%Z
  /\ (scale_yaw a <= scale_yaw b)%Z.
Proof.
  intros H. pose proof PI_RGT_0 as Hpi.
  assert (H2 : 0 < / (PI * 2)) by (apply Rinv_0_lt_compat; lra).
  assert (H1 : 0 < / PI) by (apply Rinv_0_lt_compat; lra).
  unfold scale_roll, scale_pitch, scale_yaw.
  assert (Hfull : (a + PI) / (PI * 2) * 18 <= (b + PI) / (PI * 2) * 18).
  { apply Rmult_le_compat_r; [lra|]. unfold Rdiv.
    apply Rmult_le_compat_r; lra. }
  assert (Hhalf : (a + PI / 2) / PI * 18 <= (b + PI / 2) / PI * 18).
  { apply Rmult_le_compat_r; [lra|]. unfold Rdiv at 1 3.
    apply Rmult_le_compat_r; lra. }
  repeat split; apply static_cast_int_monotone; assumption.
Qed.

Lemma scaling_is_monotone_witness :
  (scale_roll 0 <= scale_roll 1)%Z
  /\ (scale_pitch 0 <= scale_pitch 1)%Z
  /\ (scale_yaw 0 <= scale_yaw 1)%Z.
Proof. apply (scaling_is_monotone 0 1). lra. Defined.

End QuantizerBuckets.

(** ** toJSONString loses nothing *)

Section JSONFacts.
Local Open Scope string_scope.

Lemma string_append_assoc (a b c : string) : (a ++ b) ++ c = a ++ (b ++ c).
Proof. induction a as [|x a IH]; simpl; [reflexivity|]. now rewrite IH. Qed.

Lemma string_append_cancel (p s s' : string) : p ++ s = p ++ s' -> s = s'.
Proof.
  induction p as [|x p IH]; simpl; intros H; [exact H|].
  injection H as H. apply IH. exact H.
Qed.

Lemma string_of_uint_numeric (d : Decimal.uint) :
  all_numeric (DecimalString.NilEmpty.string_of_uint d) = true.
Proof. induction d; simpl; auto. Qed.

(** [std::to_string] writes digits and the minus sign only. *)
Lemma to_string_numeric (z : Z) : all_numeric (to_string z) = true.
Proof.
  unfold to_string. destruct (Z.to_int z) as [d|d]; simpl.
  - apply string_of_uint_numeric.
  - apply string_of_uint_numeric.
Qed.

(** Different numbers are written differently. *)
Lemma to_string_injective (a b : Z) : to_string a = to_string b -> a = b.
Proof.
  unfold to_string. intros H.
  apply (f_equal DecimalString.NilEmpty.int_of_string) in H.
  rewrite !DecimalString.NilEmpty.isi in H. injection H as H.
  apply (f_equal Z.of_int) in H. rewrite !DecimalZ.of_to in H. exact H.
Qed.

(** A number ends where the first other character stands. *)
Lemma numeric_prefix_unique (d d' s s' : string) (c c' : ascii) :
  all_numeric d = true -> all_numeric d' = true ->
  numeric c = false -> numeric c' = false ->
  d ++ String c s = d' ++ String c' s' ->
  d = d' /\ String c s = String c' s'.
Proof.
  intros Hd Hd' Hc Hc'. revert d' Hd'.
  induction d as [|x d IH]; intros [|x' d'] Hd' H; simpl in *.
  - auto.
  - injection H as -> _. apply andb_true_iff in Hd'. destruct Hd'.
    congruence.
  - injection H as -> _. apply andb_true_iff in Hd. destruct Hd.
    congruence.
  - injection H as -> H.
    apply andb_true_iff in Hd. apply andb_true_iff in Hd'.
    destruct (IH (proj2 Hd) d' (proj2 Hd') H) as [-> E].
    auto.
Qed.

(** The text of a waypoint, followed by anything, can be read back in
    one way only. *)
Lemma EulerAngle_toJSONString_prefix (a b : EulerAngle) (s s' : string) :
  EulerAngle_toJSONString a ++ s = EulerAngle_toJSONString b ++ s' ->
  a = b /\ s = s'.
Proof.
  unfold EulerAngle_toJSONString. rewrite !string_append_assoc.
  intros H. apply string_append_cancel in H.
  apply numeric_prefix_unique in H;
    [|apply to_string_numeric|apply to_string_numeric
     |reflexivity|reflexivity].
  destruct H as [Hr H].
  apply (string_append_cancel lit_pitch) in H.
  apply numeric_prefix_unique in H;
    [|apply to_string_numeric|apply to_string_numeric
     |reflexivity|reflexivity].
  destruct H as [Hp H].
  apply (string_append_cancel lit_yaw) in H.
  apply numeric_prefix_unique in H;
    [|apply to_string_numeric|apply to_string_numeric
     |reflexivity|reflexivity].
  destruct H as [Hy H].
  apply (string_append_cancel lit_close) in H.
  apply to_string_injective in Hr, Hp, Hy.
  destruct a, b; simpl in *. subst. auto.
Qed.

(** X24. [EulerAngle::toJSONString] writes different waypoints differently. *)
Theorem EulerAngle_toJSONString_injective (a b : EulerAngle) :
  EulerAngle_toJSONString a = EulerAngle_toJSONString b -> a = b.
Proof.
  intros H.
  assert (H' : EulerAngle_toJSONString a ++ EmptyString
               = EulerAngle_toJSONString b ++ EmptyString)
    by (rewrite H; reflexivity).
  apply EulerAngle_toJSONString_prefix in H'. tauto.
Qed.

Lemma EulerAngle_toJSONString_injective_witness :
  mkEulerAngle 5 (-3) 18 = mkEulerAngle 5 (-3) 18.
Proof.
  apply (EulerAngle_toJSONString_injective (mkEulerAngle 5 (-3) 18)
           (mkEulerAngle 5 (-3) 18)).
  reflexivity.
Defined.

(** What the loop of [Gesture::toJSONString] appends to [builder]. *)
Lemma toJSONString_loop (l : list EulerAngle) (builder : string) :
  fold_left (fun builder a => builder ++ (EulerAngle_toJSONString a ++ ", "))
    l builder
  = builder
    ++ fold_right (fun a rest => EulerAngle_toJSONString a ++ (", " ++ rest))
         EmptyString l.
Proof.
  revert builder. induction l as [|a l IH]; intros builder;
    cbn [fold_left fold_right].
  - induction builder as [|x b IHb]; simpl; [reflexivity|].
    now rewrite <- IHb.
  - rewrite IH, !string_append_assoc. reflexivity.
Qed.

(** The closing text starts with a backspace, the text of a waypoint
    with a line feed. *)
Lemma lit_end_is_no_waypoint (b : EulerAngle) (s : string) :
  lit_end <> EulerAngle_toJSONString b ++ s.
Proof.
  unfold EulerAngle_toJSONString. rewrite string_append_assoc.
  unfold lit_end, lit_roll. cbn [append]. intros H.
  injection H as H _. compute in H. discriminate H.
Qed.

Lemma toJSONString_elements_unique (l l' : list EulerAngle) :
  fold_right (fun a rest => EulerAngle_toJSONString a ++ (", " ++ rest))
    EmptyString l ++ lit_end
  = fold_right (fun a rest => EulerAngle_toJSONString a ++ (", " ++ rest))
      EmptyString l' ++ lit_end ->
  l = l'.
Proof.
  revert l'. induction l as [|a l IH]; intros [|b l'] H.
  - reflexivity.
  - exfalso. cbn [fold_right append] in H.
    rewrite string_append_assoc in H.
    exact (lit_end_is_no_waypoint _ _ H).
  - exfalso. cbn [fold_right append] in H.
    rewrite string_append_assoc in H. symmetry in H.
    exact (lit_end_is_no_waypoint _ _ H).
  - cbn [fold_right] in H. rewrite !string_append_assoc in H.
    apply EulerAngle_toJSONString_prefix in H. destruct H as [-> H].
    f_equal. apply IH.
    apply (string_append_cancel ", ") in H. exact H.
Qed.

(** X25. [Gesture::toJSONString] writes different gestures differently: the
    text determines the waypoints and their order. *)
Theorem Gesture_toJSONString_injective (g g' : Gesture) :
  Gesture_toJSONString g = Gesture_toJSONString g' -> g = g'.
Proof.
  unfold Gesture_toJSONString. rewrite !toJSONString_loop.
  rewrite !string_append_assoc. intros H.
  apply string_append_cancel in H.
  apply toJSONString_elements_unique in H.
  destruct g, g'. simpl in H. congruence.
Qed.

Lemma Gesture_toJSONString_injective_witness :
  mkGesture [mkEulerAngle 5 5 5; mkEulerAngle 10 5 5]
  = mkGesture [mkEulerAngle 5 5 5; mkEulerAngle 10 5 5].
Proof.
  apply (Gesture_toJSONString_injective
           (mkGesture [mkEulerAngle 5 5 5; mkEulerAngle 10 5 5])
           (mkGesture [mkEulerAngle 5 5 5; mkEulerAngle 10 5 5])).
  reflexivity.
Defined.

End JSONFacts.

(** ** The scaling under rounding *)

Section RoundedScalingFacts.
Local Open Scope R_scope.

Variables round_float round_double : R -> R.

(** Rounding keeps the order, and a number that the format holds is not
    changed: [m / 2^k] with fewer than 24 (53) bits in [m] and [k] up to
    149 (1074). *)
Hypothesis round_float_monotone :
  forall x y, x <= y -> round_float x <= round_float y.
Hypothesis round_double_monotone :
  forall x y, x <= y -> round_double x <= round_double y.
Hypothesis round_float_exact :
  forall (m : Z) (k : nat),
    (Z.abs m < 2 ^ 24)%Z -> (k <= 149)%nat ->
    round_float (IZR m / 2 ^ k) = IZR m / 2 ^ k.
Hypothesis round_double_exact :
  forall (m : Z) (k : nat),
    (Z.abs m < 2 ^ 53)%Z -> (k <= 1074)%nat ->
    round_double (IZR m / 2 ^ k) = IZR m / 2 ^ k.

Lemma round_float_fixes (x : R) (m : Z) (k : nat) :
  x = IZR m / 2 ^ k -> (Z.abs m < 2 ^ 24)%Z -> (k <= 149)%nat ->
  round_float x = x.
Proof. intros -> Hm Hk. apply round_float_exact; assumption. Qed.

Lemma round_double_fixes (x : R) (m : Z) (k : nat) :
  x = IZR m / 2 ^ k -> (Z.abs m < 2 ^ 53)%Z -> (k <= 1074)%nat ->
  round_double x = x.
Proof. intros -> Hm Hk. apply round_double_exact; assumption. Qed.

(** A [double] between 0 and 1 + 1/32, times 18 and rounded, is cut to a
    value between 0 and 18; from 1 upwards it is cut to 18. *)
Lemma rounded_product_within (q : R) :
  0 <= q <= 33 / 32 ->
  (0 <= static_cast_int (round_double (q * 18)) <= 18)%Z
  /\ (1 <= q -> static_cast_int (round_double (q * 18)) = 18%Z).
Proof.
  intros [H0 H1].
  assert (E0 : round_double 0 = 0)
    by (apply (round_double_fixes 0 0 0); [lra|lia|lia]).
  assert (E18 : round_double 18 = 18)
    by (apply (round_double_fixes 18 18 0); [lra|lia|lia]).
  assert (Etop : round_double (297 / 16) = 297 / 16)
    by (apply (round_double_fixes (297 / 16) 297 4); [lra|lia|lia]).
  pose proof (round_double_monotone 0 (q * 18) ltac:(lra)) as Hlo.
  pose proof (round_double_monotone (q * 18) (297 / 16) ltac:(lra)) as Hhi.
  rewrite E0 in Hlo. rewrite Etop in Hhi.
  set (r := round_double (q * 18)) in *.
  unfold static_cast_int. destruct (Rle_dec 0 r) as [_|Hn]; [|contradiction].
  destruct (base_Int_part r) as [Hle Hgt].
  assert (Hz0 : (-1 < Int_part r)%Z) by (apply lt_IZR; lra).
  assert (Hz19 : (Int_part r < 19)%Z) by (apply lt_IZR; lra).
  split; [lia|].
  intros Hq.
  pose proof (round_double_monotone 18 (q * 18) ltac:(lra)) as H18.
  rewrite E18 in H18. fold r in H18.
  assert (Hz17 : (17 < Int_part r)%Z) by (apply lt_IZR; lra).
  lia.
Qed.

(** X26. With every rounding of lines 63-65 taken into account, a roll (or
    yaw) between [-(float)M_PI] and [(float)M_PI] and a pitch between
    the halves of these are stored as values between 0 and 18, and the
    upper ends as 18. *)
Theorem rounded_scaling_within_0_18 (roll pitch : R) :
  - M_PI_float <= roll <= M_PI_float ->
  - (M_PI_float / 2) <= pitch <= M_PI_float / 2 ->
  (0 <= roll_w_rounded round_float round_double roll <= 18)%Z
  /\ (0 <= pitch_w_rounded round_float round_double pitch <= 18)%Z
  /\ roll_w_rounded round_float round_double M_PI_float = 18%Z
  /\ pitch_w_rounded round_float round_double (M_PI_float / 2) = 18%Z.
Proof.
  intros Hroll Hpitch. unfold M_PI_float in Hroll, Hpitch.
  assert (F0 : round_float 0 = 0)
    by (apply (round_float_fixes 0 0 0); [lra|lia|lia]).
  assert (F2 : round_float (M_PI_float + M_PI_float)
               = M_PI_float + M_PI_float).
  { apply (round_float_fixes _ 13176795 21);
      [unfold M_PI_float; lra|lia|lia]. }
  assert (F1 : round_float (M_PI_float / 2 + M_PI_float / 2)
               = M_PI_float).
  { replace (M_PI_float / 2 + M_PI_float / 2) with M_PI_float by lra.
    apply (round_float_fixes _ 13176795 22);
      [unfold M_PI_float; lra|lia|lia]. }
  assert (Fh : round_float (M_PI_float / 2) = M_PI_float / 2).
  { apply (round_float_fixes _ 13176795 23);
      [unfold M_PI_float; lra|lia|lia]. }
  assert (D2 : round_double (M_PI_double * 2) = M_PI_double * 2).
  { apply (round_double_fixes _ 884279719003555 47);
      [unfold M_PI_double; lra|lia|lia]. }
  assert (D0 : round_double 0 = 0)
    by (apply (round_double_fixes 0 0 0); [lra|lia|lia]).
  assert (D1 : round_double 1 = 1)
    by (apply (round_double_fixes 1 1 0); [lra|lia|lia]).
  assert (Dt : round_double (33 / 32) = 33 / 32)
    by (apply (round_double_fixes (33 / 32) 33 5); [lra|lia|lia]).
  (* the quotient of line 63, between 0 and 33/32 *)
  assert (Qroll : forall a, - M_PI_float <= a <= M_PI_float ->
            0 <= round_double (round_float (a + M_PI_float)
                               / round_double (M_PI_double * 2))
              <= 33 / 32).
  { intros a [Hlo Hhi]. rewrite D2.
    pose proof (round_float_monotone 0 (a + M_PI_float) ltac:(lra)) as H0.
    pose proof (round_float_monotone (a + M_PI_float)
                  (M_PI_float + M_PI_float) ltac:(lra)) as H2.
    rewrite F0 in H0. rewrite F2 in H2.
    set (t := round_float (a + M_PI_float)) in *.
    assert (Hq0 : 0 <= t / (M_PI_double * 2)).
    { unfold Rdiv. apply Rmult_le_pos; [exact H0|].
      left. apply Rinv_0_lt_compat. unfold M_PI_double. lra. }
    assert (Hq1 : t / (M_PI_double * 2) <= 33 / 32).
    { apply Rle_trans
        with ((M_PI_float + M_PI_float) / (M_PI_double * 2)).
      - unfold Rdiv. apply Rmult_le_compat_r; [|exact H2].
        left. apply Rinv_0_lt_compat. unfold M_PI_double. lra.
      - unfold M_PI_float, M_PI_double. lra. }
    pose proof (round_double_monotone _ _ Hq0) as R0.
    pose proof (round_double_monotone _ _ Hq1) as R1.
    rewrite D0 in R0. rewrite Dt in R1. lra. }
  assert (Qpitch : forall a, - (M_PI_float / 2) <= a <= M_PI_float / 2 ->
            0 <= round_double
                   (round_float (a + round_float (M_PI_float / 2))
                    / M_PI_double)
              <= 33 / 32).
  { intros a [Hlo Hhi]. rewrite Fh.
    pose proof (round_float_monotone 0 (a + M_PI_float / 2) ltac:(lra))
      as H0.
    pose proof (round_float_monotone (a + M_PI_float / 2)
                  (M_PI_float / 2 + M_PI_float / 2) ltac:(lra)) as H2.
    rewrite F0 in H0. rewrite F1 in H2.
    set (t := round_float (a + M_PI_float / 2)) in *.
    assert (Hq0 : 0 <= t / M_PI_double).
    { unfold Rdiv. apply Rmult_le_pos; [exact H0|].
      left. apply Rinv_0_lt_compat. unfold M_PI_double. lra. }
    assert (Hq1 : t / M_PI_double <= 33 / 32).
    { apply Rle_trans with (M_PI_float / M_PI_double).
      - unfold Rdiv. apply Rmult_le_compat_r; [|exact H2].
        left. apply Rinv_0_lt_compat. unfold M_PI_double. lra.
      - unfold M_PI_float, M_PI_double. lra. }
    pose proof (round_double_monotone _ _ Hq0) as R0.
    pose proof (round_double_monotone _ _ Hq1) as R1.
    rewrite D0 in R0. rewrite Dt in R1. lra. }
  unfold roll_w_rounded, pitch_w_rounded.
  split; [apply rounded_product_within, Qroll; unfold M_PI_float; lra|].
  split; [apply rounded_product_within, Qpitch; unfold M_PI_float; lra|].
  split.
  - apply rounded_product_within;
      [apply Qroll; unfold M_PI_float; lra|].
    rewrite F2, D2, <- D1. apply round_double_monotone.
    unfold M_PI_float, M_PI_double. lra.
  - apply rounded_product_within;
      [apply Qpitch; unfold M_PI_float; lra|].
    rewrite Fh, F1, <- D1. apply round_double_monotone.
    unfold M_PI_float, M_PI_double. lra.
Qed.

End RoundedScalingFacts.

Lemma rounded_scaling_within_0_18_witness :
  (0 <= roll_w_rounded (fun x => x) (fun x => x) 0 <= 18)%Z
  /\ (0 <= pitch_w_rounded (fun x => x) (fun x => x) 0 <= 18)%Z
  /\ roll_w_rounded (fun x => x) (fun x => x) M_PI_float = 18%Z
  /\ pitch_w_rounded (fun x => x) (fun x => x) (M_PI_float / 2) = 18%Z.
Proof.
  apply (rounded_scaling_within_0_18 (fun x => x) (fun x => x)).
  - intros x y H. exact H.
  - intros x y H. exact H.
  - intros m k _ _. reflexivity.
  - intros m k _ _. reflexivity.
  - unfold M_PI_float. lra.
  - unfold M_PI_float. lra.
Defined.
